(** * integral_io: decimal text I/O for integers of every width

    A shallow embedding of [integral_io.hpp].  The header wraps an integer so
    that the iostream inserters and extractors treat it as a number even
    when it is one byte wide (where they would otherwise read and write a
    character).

    Conventions of the embedding:
    - a value of an integral type [T] is a [Z] inside
      [numeric_limits.min T .. numeric_limits.max T];
    - bytes have 8 bits, [int] has 32 bits, conversions to a signed type wrap
      (two's complement);
    - an evaluation with undefined behaviour (signed overflow in [int], or
      reading a variable that was never written) is [None];
    - the streams are the standard narrow ones in their default formatting
      state (decimal, [skipws], no width, classic locale), and the types
      wider than a byte are the integer types the streams treat as
      numbers;
    - [as_integer] and the stream operators of the header only build a
      wrapper and forward to its [output] or [input], so [output] and
      [input] stand for [os << as_integer(x)] and [is >> as_integer(x)]. *)

From Stdlib Require Import ZArith Bool List String Ascii Lia.
Import ListNotations.
Local Open Scope Z_scope.

(** ** Undefined behaviour as an error monad *)

Definition bind {A B : Type} (m : option A) (k : A -> option B) : option B :=
  match m with
  | Some a => k a
  | None => None
  end.

Notation "x <- m ;; k" := (bind m (fun x => k))
  (at level 61, m at next level, right associativity).

(** ** Integral types

    The templates of the header dispatch on [sizeof(Integer)] and
    [std::is_signed<Integer>::value] only, so an integral type is described
    by these two; [bool] is kept apart because its limits and its conversion
    differ from those of a one-byte unsigned integer. *)

Inductive Integer : Type :=
| bool_t
| int_t (bytes : positive) (sgn : bool).

Definition sizeof (T : Integer) : Z :=
  match T with
  | bool_t => 1
  | int_t bytes _ => Z.pos bytes
  end.

Definition is_signed (T : Integer) : bool :=
  match T with
  | bool_t => false
  | int_t _ sgn => sgn
  end.

Definition bits (T : Integer) : Z := 8 * sizeof T.

Definition int8_t : Integer := int_t 1 true.
Definition uint8_t : Integer := int_t 1 false.
Definition int16_t : Integer := int_t 2 true.
Definition uint16_t : Integer := int_t 2 false.
Definition int : Integer := int_t 4 true.

Module numeric_limits.

Definition max (T : Integer) : Z :=
  match T with
  | bool_t => 1
  | int_t _ true => 2 ^ (bits T - 1) - 1
  | int_t _ false => 2 ^ bits T - 1
  end.

Definition min (T : Integer) : Z :=
  match T with
  | bool_t => 0
  | int_t _ true => - 2 ^ (bits T - 1)
  | int_t _ false => 0
  end.

End numeric_limits.

(** [representable T v]: [v] is a value of type [T]. *)
Definition representable (T : Integer) (v : Z) : Prop :=
  numeric_limits.min T <= v <= numeric_limits.max T.

Definition representableb (T : Integer) (v : Z) : bool :=
  (numeric_limits.min T <=? v) && (v <=? numeric_limits.max T).

(** [static_cast<T>(x)] for an integer [x] of any type. *)
Definition static_cast (T : Integer) (x : Z) : Z :=
  match T with
  | bool_t => if x =? 0 then 0 else 1
  | int_t _ false => x mod 2 ^ bits T
  | int_t _ true => (x + 2 ^ (bits T - 1)) mod 2 ^ bits T - 2 ^ (bits T - 1)
  end.

(** Arithmetic on operands promoted to [int]: the mathematical result, or
    undefined behaviour when [int] cannot hold it. *)
Definition int_result (r : Z) : option Z :=
  if representableb int r then Some r else None.

Definition int_mul (a b : Z) : option Z := int_result (a * b).
Definition int_add (a b : Z) : option Z := int_result (a + b).

(** ** Width Classifier: [integral_io_trait] *)

Definition integral_io_trait (T : Integer) : Integer :=
  match sizeof T, is_signed T with
  | 1, true => int16_t
  | 1, false => uint16_t
  | _, _ => T
  end.

Definition integral_io_t (T : Integer) : Integer := integral_io_trait T.

(** ** The external collaborators: standard streams

    [os << x] and [is >> x] of the standard library, for an operand of an
    integral type, in the default formatting state.  A one-byte integer is a
    character type for the streams: it is written as the single character it
    encodes and read as the next character.  Every wider integer is written
    as a decimal numeral and read by the numeric extractor. *)

Definition code (c : ascii) : Z := Z.of_N (N_of_ascii c).

Definition isspace (c : ascii) : bool :=
  (code c =? 32) || ((9 <=? code c) && (code c <=? 13)).

Definition isdigit (c : ascii) : bool :=
  (48 <=? code c) && (code c <=? 57).

Definition digit_value (c : ascii) : Z := code c - 48.

Definition digit_char (d : Z) : ascii := ascii_of_N (Z.to_N (48 + d)).

(** The character with a given character code. *)
Definition glyph (v : Z) : ascii := ascii_of_N (Z.to_N (v mod 256)).

(** *** Text Sink *)

(** The sink is a stream in its good state; only the text written so far is
    kept. *)
Definition ostream : Type := string.

(** The digit loop of the numeric inserter: the digits of [v] are produced
    from the least significant one and prepended to [buf], until the
    quotient is zero. *)
Fixpoint int_to_char (fuel : nat) (v : Z) (buf : string) : string :=
  match fuel with
  | O => buf
  | S fuel' =>
      let buf' := String (digit_char (v mod 10)) buf in
      if v / 10 =? 0 then buf' else int_to_char fuel' (v / 10) buf'
  end.

(** A number below [2 ^ n] has at most [n] decimal digits, so the loop never
    runs out of fuel here (see [int_to_char_more_fuel]). *)
Definition digits (v : Z) : string :=
  int_to_char (S (Z.to_nat (Z.log2 v))) v EmptyString.

(** [num_put]: the decimal numeral of [v], with a minus sign when negative. *)
Definition num_put (v : Z) : string :=
  if v <? 0 then String "-"%char (digits (- v)) else digits v.

(** [os << x] for [x] of type [U]. *)
Definition insert (U : Integer) (x : Z) (os : ostream) : ostream :=
  match U with
  | int_t 1 _ => (os ++ String (glyph x) EmptyString)%string
  | _ => (os ++ num_put x)%string
  end.

(** *** Text Source *)

Record istream : Type := mk_istream {
  rdbuf : string;      (* the characters not yet consumed *)
  badbit : bool;
  eofbit : bool;
  failbit : bool
}.

(** A fresh stream over a text, as [std::istringstream] builds it. *)
Definition istringstream (text : string) : istream :=
  {| rdbuf := text; badbit := false; eofbit := false; failbit := false |}.

Definition good (ist : istream) : bool :=
  negb (badbit ist || eofbit ist || failbit ist).

(** [is.setstate(std::ios_base::failbit)] (the source calls the stream [is],
    a reserved word here: the embedding writes [ist]) *)
Definition setstate_failbit (ist : istream) : istream :=
  {| rdbuf := rdbuf ist; badbit := badbit ist; eofbit := eofbit ist;
     failbit := true |}.

Fixpoint skipws (s : string) : string :=
  match s with
  | EmptyString => EmptyString
  | String c s' => if isspace c then skipws s' else s
  end.

(** Accumulates the leading decimal digits of [s] onto [n]; [any] tells
    whether a digit has been seen.  Returns the number, the flag and the
    unread rest. *)
Fixpoint scan_digits (s : string) (n : Z) (any : bool) : Z * bool * string :=
  match s with
  | EmptyString => (n, any, EmptyString)
  | String c s' =>
      if isdigit c then scan_digits s' (10 * n + digit_value c) true
      else (n, any, s)
  end.

(** The optional sign in front of a numeral. *)
Definition scan_sign (s : string) : bool * string :=
  match s with
  | String "-"%char s' => (true, s')
  | String "+"%char s' => (false, s')
  | _ => (false, s)
  end.

(** The value the numeric extractor stores for the magnitude [n] with sign
    [neg], and whether it reports failure: an out-of-range numeral stores
    the nearest limit and fails; a negative numeral read into an unsigned
    type is negated in that type when its magnitude fits. *)
Definition num_get_convert (U : Integer) (neg : bool) (n : Z) : Z * bool :=
  match U with
  | bool_t =>
      let v := if neg then - n else n in
      if v =? 0 then (0, false) else if v =? 1 then (1, false) else (1, true)
  | int_t _ true =>
      let v := if neg then - n else n in
      if v >? numeric_limits.max U then (numeric_limits.max U, true)
      else if v <? numeric_limits.min U then (numeric_limits.min U, true)
      else (v, false)
  | int_t _ false =>
      if n >? numeric_limits.max U then (numeric_limits.max U, true)
      else if neg then (static_cast U (- n), false)
      else (n, false)
  end.

(** The numeric extractor on a text [s] whose first character is not white
    space: an optional sign, then digits.  A malformed numeral (no digit)
    stores 0 and sets [failbit]; reaching the end of the text sets
    [eofbit]. *)
Definition num_get (U : Integer) (s : string) : istream * option Z :=
  let '(neg, s1) := scan_sign s in
  let '(n, any, rest) := scan_digits s1 0 false in
  let '(v, err) := if any then num_get_convert U neg n else (0, true) in
  ({| rdbuf := rest; badbit := false;
      eofbit := match rest with EmptyString => true | _ => false end;
      failbit := err |}, Some v).

(** The character extractor: stores the next character [c]. *)
Definition get_char (U : Integer) (c : ascii) (s' : string)
  : istream * option Z :=
  ({| rdbuf := s'; badbit := false; eofbit := false; failbit := false |},
   Some (static_cast U (code c))).

(** [is >> x] for [x] of type [U].  The second component is the value
    stored into [x], or [None] when [x] is left untouched: the stream was
    not good, or held nothing but white space. *)
Definition extract (U : Integer) (ist : istream) : istream * option Z :=
  if negb (good ist) then (setstate_failbit ist, None)
  else
    match skipws (rdbuf ist) with
    | EmptyString =>
        ({| rdbuf := EmptyString; badbit := false; eofbit := true;
            failbit := true |}, None)
    | String c s' as s =>
        match U with
        | int_t 1 _ => get_char U c s'
        | _ => num_get U s
        end
    end.

(** ** Formatter, write view: [integral_output_wrapper]

    [m_value] is the wrapped value; [output] is what
    [os << as_integer(value)] runs for a non-mutable [value]. *)

Module integral_output_wrapper.

(** Primary template: integers bigger than one byte. *)
Module generic.
Definition output (T : Integer) (m_value : Z) (os : ostream) : ostream :=
  insert T m_value os.
End generic.

(** Specialisation [<Integer, Integer, 1>]. *)
Module byte.
Definition output (T : Integer) (m_value : Z) (os : ostream) : ostream :=
  insert (integral_io_t T) (static_cast (integral_io_t T) m_value) os.
End byte.

(** Template selection on [sizeof(Integer)]. *)
Definition output (T : Integer) : Z -> ostream -> ostream :=
  match sizeof T with
  | 1 => byte.output T
  | _ => generic.output T
  end.

End integral_output_wrapper.

(** ** Formatter and Narrowing Parser, read/write view: [integral_io_wrapper]

    [m_value] is the referenced location: [input] receives its current
    content and returns the stream and the content after the call. *)

Module integral_io_wrapper.

(** Primary template: integers bigger than one byte. *)
Module generic.

Definition output (T : Integer) (m_value : Z) (os : ostream) : ostream :=
  insert T m_value os.

Definition input (T : Integer) (ist : istream) (m_value : Z)
  : option (istream * Z) :=
  (* is >> m_value; *)
  let '(ist, stored) := extract T ist in
  Some (ist, match stored with Some v => v | None => m_value end).

End generic.

(** Specialisation [<Integer, Integer, 1, true>]: signed, one byte. *)
Module byte_signed.

Definition output (T : Integer) (m_value : Z) (os : ostream) : ostream :=
  insert int16_t (static_cast int16_t m_value) os.

Definition input (T : Integer) (ist : istream) (m_value : Z)
  : option (istream * Z) :=
  (* std::int16_t temp; is >> temp; *)
  let '(ist, temp) := extract int16_t ist in
  (* [temp] is read from here on: undefined if nothing was stored *)
  temp <- temp ;;
  if temp >? static_cast int16_t (numeric_limits.max T) then
    Some (setstate_failbit ist, numeric_limits.max T)
  else if temp <? static_cast int16_t (numeric_limits.min T) then
    Some (setstate_failbit ist, numeric_limits.min T)
  else
    Some (ist, static_cast T temp).

End byte_signed.

(** Specialisation [<Integer, Integer, 1, false>]: unsigned, one byte. *)
Module byte_unsigned.

Definition output (T : Integer) (m_value : Z) (os : ostream) : ostream :=
  insert int16_t (static_cast int16_t m_value) os.

Definition input (T : Integer) (ist : istream) (m_value : Z)
  : option (istream * Z) :=
  (* std::int16_t temp; is >> temp; *)
  let '(ist, temp) := extract int16_t ist in
  (* [temp] is read from here on: undefined if nothing was stored *)
  temp <- temp ;;
  if temp >? static_cast int16_t (numeric_limits.max T) then
    Some (setstate_failbit ist, numeric_limits.max T)
  else if temp <? 0 then
    (* (temp * -1), both operands promoted to int *)
    magnitude <- int_mul temp (-1) ;;
    if magnitude <=? static_cast int16_t (numeric_limits.max T) then
      (* max() + temp + 1, in int, then narrowed *)
      sum <- int_add (numeric_limits.max T) temp ;;
      sum <- int_add sum 1 ;;
      Some (ist, static_cast T sum)
    else
      Some (setstate_failbit ist, numeric_limits.max T)
  else
    Some (ist, static_cast T temp).

End byte_unsigned.

(** Template selection on [sizeof(Integer)] and [is_signed]. *)
Definition output (T : Integer) : Z -> ostream -> ostream :=
  match sizeof T, is_signed T with
  | 1, true => byte_signed.output T
  | 1, false => byte_unsigned.output T
  | _, _ => generic.output T
  end.

Definition input (T : Integer) : istream -> Z -> option (istream * Z) :=
  match sizeof T, is_signed T with
  | 1, true => byte_signed.input T
  | 1, false => byte_unsigned.input T
  | _, _ => generic.input T
  end.

End integral_io_wrapper.

(** ** Stream operators and [as_integer]

    [as_integer(value)] builds the write view for a non-mutable [value] and
    the read/write view for a mutable one; the stream operators run the
    view's [output] or [input] and return the stream, so that uses can be
    chained. *)

(** [os << as_integer(value)], [value] not mutable. *)
Definition write_as_integer_const (T : Integer) (os : ostream) (value : Z)
  : ostream :=
  integral_output_wrapper.output T value os.

(** [os << as_integer(value)], [value] mutable. *)
Definition write_as_integer (T : Integer) (os : ostream) (value : Z)
  : ostream :=
  integral_io_wrapper.output T value os.

(** [is >> as_integer(value)]: the stream and the content of [value]
    afterwards. *)
Definition read_as_integer (T : Integer) (ist : istream) (value : Z)
  : option (istream * Z) :=
  integral_io_wrapper.input T ist value.

(** Whether the next character of a text is a decimal digit. *)
Definition starts_with_digit (s : string) : bool :=
  match s with
  | EmptyString => false
  | String c _ => isdigit c
  end.

(** ** Small checks of the embedding *)

Example trait_int : integral_io_t int = int.
Proof. reflexivity. Qed.

Example num_put_neg : num_put (-32768) = "-32768"%string.
Proof. reflexivity. Qed.

Example extract_malformed :
  extract int16_t (istringstream "abc") =
  ({| rdbuf := "abc"; badbit := false; eofbit := false; failbit := true |},
   Some 0).
Proof. reflexivity. Qed.

Example extract_too_big :
  extract int16_t (istringstream "  40000 rest") =
  ({| rdbuf := " rest"; badbit := false; eofbit := false; failbit := true |},
   Some 32767).
Proof. reflexivity. Qed.

Example extract_empty :
  extract int16_t (istringstream " ") =
  ({| rdbuf := EmptyString; badbit := false; eofbit := true;
      failbit := true |}, None).
Proof. reflexivity. Qed.

Example input_uint8_wraps :
  integral_io_wrapper.input uint8_t (istringstream "-1") 7 =
  Some ({| rdbuf := EmptyString; badbit := false; eofbit := true;
           failbit := false |},
        255).
Proof. reflexivity. Qed.

Example naive_insert_writes_a_character :
  insert uint8_t 65 EmptyString = "A"%string.
Proof. reflexivity. Qed.

(** * Properties *)

(** ** Characters and digits *)

Lemma digit_cases (d : Z) :
  0 <= d < 10 ->
  d = 0 \/ d = 1 \/ d = 2 \/ d = 3 \/ d = 4 \/
  d = 5 \/ d = 6 \/ d = 7 \/ d = 8 \/ d = 9.
Proof. lia. Qed.

Ltac each_digit d H :=
  destruct (digit_cases d H) as [-> | [-> | [-> | [-> | [-> |
                                [-> | [-> | [-> | [-> | ->]]]]]]]]].

Lemma isdigit_digit_char (d : Z) : 0 <= d < 10 -> isdigit (digit_char d) = true.
Proof. intros H; each_digit d H; reflexivity. Qed.

Lemma digit_value_digit_char (d : Z) :
  0 <= d < 10 -> digit_value (digit_char d) = d.
Proof. intros H; each_digit d H; reflexivity. Qed.

Lemma isspace_digit_char (d : Z) :
  0 <= d < 10 -> isspace (digit_char d) = false.
Proof. intros H; each_digit d H; reflexivity. Qed.

Lemma scan_sign_digit_char (d : Z) (s : string) :
  0 <= d < 10 ->
  scan_sign (String (digit_char d) s) = (false, String (digit_char d) s).
Proof. intros H; each_digit d H; reflexivity. Qed.

Lemma code_range (c : ascii) : 0 <= code c < 256.
Proof.
  unfold code. pose proof (N_ascii_bounded c) as H. lia.
Qed.

(** ** The numeric inserter and extractor agree *)

Lemma mod10_digit (v : Z) : 0 <= v mod 10 < 10.
Proof. apply Z.mod_pos_bound; lia. Qed.

(** The digit loop always writes a digit first. *)
Lemma int_to_char_head (fuel : nat) :
  forall v buf, exists d rest,
    0 <= d < 10 /\ int_to_char (S fuel) v buf = String (digit_char d) rest.
Proof.
  induction fuel as [| fuel IH]; intros v buf.
  - exists (v mod 10), buf. split; [apply mod10_digit |].
    simpl. destruct (v / 10 =? 0); reflexivity.
  - change (int_to_char (S (S fuel)) v buf)
      with (let buf' := String (digit_char (v mod 10)) buf in
            if v / 10 =? 0 then buf' else int_to_char (S fuel) (v / 10) buf').
    cbv zeta. destruct (v / 10 =? 0).
    + exists (v mod 10), buf. split; [apply mod10_digit | reflexivity].
    + apply IH.
Qed.

Lemma scan_digits_digit (d : Z) (s : string) (n : Z) (any : bool) :
  0 <= d < 10 ->
  scan_digits (String (digit_char d) s) n any = scan_digits s (10 * n + d) true.
Proof.
  intros H. cbn [scan_digits].
  rewrite isdigit_digit_char, digit_value_digit_char by assumption.
  reflexivity.
Qed.

(** Scanning what the digit loop wrote for [v] appends [v] to the number
    accumulated so far, provided the loop had fuel for every digit. *)
Lemma scan_int_to_char (fuel : nat) :
  forall v buf n any,
    0 <= v < 2 ^ Z.of_nat fuel ->
    (0 < fuel)%nat ->
    exists k, 0 <= k /\
      scan_digits (int_to_char fuel v buf) n any =
      scan_digits buf (n * 10 ^ k + v) true.
Proof.
  induction fuel as [| fuel IH]; intros v buf n any Hv Hfuel; [lia |].
  simpl int_to_char.
  pose proof (mod10_digit v) as Hd.
  pose proof (Z.div_mod v 10 ltac:(lia)) as Hdm.
  destruct (Z.eqb_spec (v / 10) 0) as [Hq | Hq].
  - exists 1. split; [lia |].
    rewrite scan_digits_digit by assumption.
    f_equal. rewrite Z.pow_1_r. lia.
  - assert (Hq' : 0 < v / 10) by (pose proof (Z.div_pos v 10); lia).
    assert (Hlt : v / 10 < 2 ^ Z.of_nat fuel).
    { rewrite Nat2Z.inj_succ, Z.pow_succ_r in Hv by lia. lia. }
    assert (Hf : (0 < fuel)%nat).
    { destruct fuel; [simpl in Hlt; lia | lia]. }
    destruct (IH (v / 10) (String (digit_char (v mod 10)) buf) n any
                ltac:(lia) Hf) as (k & Hk & E).
    exists (k + 1). split; [lia |].
    rewrite E, scan_digits_digit by assumption.
    f_equal. rewrite Z.pow_add_r, Z.pow_1_r by lia. lia.
Qed.

Lemma digits_fuel (v : Z) :
  0 <= v -> 0 <= v < 2 ^ Z.of_nat (S (Z.to_nat (Z.log2 v))).
Proof.
  intros Hv. split; [assumption |].
  rewrite Nat2Z.inj_succ, Z2Nat.id by apply Z.log2_nonneg.
  destruct (Z.eq_dec v 0) as [-> | Hnz]; [reflexivity |].
  apply Z.log2_spec. lia.
Qed.

(** More fuel than [digits] provides changes nothing: the loop has stopped. *)
Lemma int_to_char_more_fuel (fuel : nat) :
  forall extra v buf,
    0 <= v < 2 ^ Z.of_nat fuel ->
    (0 < fuel)%nat ->
    int_to_char (fuel + extra) v buf = int_to_char fuel v buf.
Proof.
  induction fuel as [| fuel IH]; intros extra v buf Hv Hfuel; [lia |].
  simpl. destruct (Z.eqb_spec (v / 10) 0) as [Hq | Hq]; [reflexivity |].
  pose proof (mod10_digit v) as Hd.
  pose proof (Z.div_mod v 10 ltac:(lia)) as Hdm.
  assert (Hq' : 0 < v / 10) by (pose proof (Z.div_pos v 10); lia).
  assert (Hlt : v / 10 < 2 ^ Z.of_nat fuel).
  { rewrite Nat2Z.inj_succ, Z.pow_succ_r in Hv by lia. lia. }
  apply IH; [lia |].
  destruct fuel; [simpl in Hlt; lia | lia].
Qed.

Lemma scan_digits_digits (v : Z) :
  0 <= v -> scan_digits (digits v) 0 false = (v, true, EmptyString).
Proof.
  intros Hv. unfold digits.
  destruct (scan_int_to_char _ v EmptyString 0 false (digits_fuel v Hv)
              ltac:(lia)) as (k & _ & E).
  rewrite E. reflexivity.
Qed.

Lemma digits_head (v : Z) :
  exists d rest, 0 <= d < 10 /\ digits v = String (digit_char d) rest.
Proof. unfold digits. apply int_to_char_head. Qed.

(** ** Integral types of one byte and wider *)

Lemma one_byte_cases (T : Integer) :
  sizeof T = 1 -> T = bool_t \/ T = int8_t \/ T = uint8_t.
Proof.
  destruct T as [| bytes [|]]; simpl; intros H; auto;
    assert (bytes = 1%positive) by lia; subst; auto.
Qed.

Lemma one_byte_signed (T : Integer) :
  sizeof T = 1 -> is_signed T = true -> T = int8_t.
Proof.
  intros H S. destruct (one_byte_cases T H) as [-> | [-> | ->]];
    [discriminate | reflexivity | discriminate].
Qed.

Lemma one_byte_unsigned (T : Integer) :
  sizeof T = 1 -> is_signed T = false -> T = bool_t \/ T = uint8_t.
Proof.
  intros H S. destruct (one_byte_cases T H) as [-> | [-> | ->]];
    [auto | discriminate | auto].
Qed.

Lemma representable_iff (T : Integer) (v : Z) :
  representableb T v = true <-> representable T v.
Proof. unfold representableb, representable. lia. Qed.

(** On a good stream whose next character after white space exists, a type
    wider than a byte is read by the numeric extractor. *)
Lemma extract_wide (U : Integer) (ist : istream) (c : ascii) (s' : string) :
  1 < sizeof U ->
  good ist = true ->
  skipws (rdbuf ist) = String c s' ->
  extract U ist = num_get U (String c s').
Proof.
  intros Hsz Hgood Hws. unfold extract. rewrite Hgood, Hws. simpl negb.
  destruct U as [| [p | p |] sgn]; try reflexivity; simpl in Hsz; lia.
Qed.

(** Whatever the numeric extractor stores is a value of the type. *)
Lemma num_get_convert_representable (U : Integer) (neg : bool) (n : Z) :
  1 < sizeof U -> 0 <= n ->
  representable U (fst (num_get_convert U neg n)).
Proof.
  intros Hsz Hn. unfold representable.
  destruct U as [| bytes [|]]; [simpl in Hsz; lia | |].
  - unfold num_get_convert.
    assert (numeric_limits.min (int_t bytes true)
            <= numeric_limits.max (int_t bytes true)).
    { unfold numeric_limits.min, numeric_limits.max.
      assert (0 < 2 ^ (bits (int_t bytes true) - 1))
        by (apply Z.pow_pos_nonneg; unfold bits; simpl; lia).
      lia. }
    destruct neg;
      repeat match goal with
             | |- context [?a >? ?b] => destruct (Z.gtb_spec a b)
             | |- context [?a <? ?b] => destruct (Z.ltb_spec a b)
             end; cbn [fst]; lia.
  - unfold num_get_convert.
    assert (Hpow : 0 < 2 ^ bits (int_t bytes false))
      by (apply Z.pow_pos_nonneg; unfold bits; simpl; lia).
    assert (numeric_limits.min (int_t bytes false) = 0) by reflexivity.
    assert (Hmax : numeric_limits.max (int_t bytes false)
                   = 2 ^ bits (int_t bytes false) - 1) by reflexivity.
    destruct (Z.gtb_spec n (numeric_limits.max (int_t bytes false)));
      [cbn [fst]; lia |].
    destruct neg; cbn [fst]; [| lia].
    unfold static_cast.
    pose proof (Z.mod_pos_bound (- n) _ Hpow). lia.
Qed.

Lemma scan_digits_nonneg (s : string) :
  forall n any m a r,
    0 <= n -> scan_digits s n any = (m, a, r) -> 0 <= m.
Proof.
  induction s as [| c s IH]; intros n any m a r Hn H; cbn [scan_digits] in H.
  - inversion H; subst; assumption.
  - destruct (isdigit c) eqn:Hc.
    + apply IH in H; [assumption |].
      unfold isdigit in Hc. apply andb_true_iff in Hc.
      unfold digit_value. lia.
    + inversion H; subst; assumption.
Qed.

(** What the numeric extractor leaves behind: a value of the type, and on
    failure either 0 (malformed numeral) or a limit of the type. *)
Lemma num_get_stored (U : Integer) (s : string) (ist1 : istream) (b : Z) :
  1 < sizeof U ->
  num_get U s = (ist1, Some b) ->
  representable U b /\
  (failbit ist1 = true ->
   b = 0 \/ b = numeric_limits.max U \/ b = numeric_limits.min U).
Proof.
  intros Hsz H. unfold num_get in H.
  destruct (scan_sign s) as [neg s1].
  destruct (scan_digits s1 0 false) as [[n any] rest] eqn:Hscan.
  apply scan_digits_nonneg in Hscan; [| lia].
  destruct any.
  - pose proof (num_get_convert_representable U neg n Hsz Hscan) as Hrep.
    destruct (num_get_convert U neg n) as [v err] eqn:Hconv.
    inversion H; subst; clear H. cbn [fst failbit] in *.
    split; [assumption |]. intros ->.
    destruct U as [| bytes [|]]; [simpl in Hsz; lia | |];
      unfold num_get_convert in Hconv;
      repeat match type of Hconv with
             | context [?a >? ?b] => destruct (a >? b)
             | context [?a <? ?b] => destruct (a <? b)
             | context [if neg then _ else _] => destruct neg
             end; inversion Hconv; auto.
  - inversion H; subst; clear H. split; [| auto].
    unfold representable.
    destruct U as [| bytes [|]]; [simpl in Hsz; lia | |];
      unfold numeric_limits.min, numeric_limits.max.
    + assert (0 < 2 ^ (bits (int_t bytes true) - 1))
        by (apply Z.pow_pos_nonneg; unfold bits; simpl; lia).
      lia.
    + assert (0 < 2 ^ bits (int_t bytes false))
        by (apply Z.pow_pos_nonneg; unfold bits; simpl; lia).
      lia.
Qed.

(** The same for [is >> temp] with the 16-bit buffer of the one-byte
    parsers. *)
Lemma extract_int16_stored (ist ist1 : istream) (b : Z) :
  extract int16_t ist = (ist1, Some b) ->
  -32768 <= b <= 32767 /\
  (failbit ist1 = true -> b = 0 \/ b = 32767 \/ b = -32768).
Proof.
  intros H. unfold extract in H.
  destruct (good ist); [| discriminate]. cbn [negb] in H.
  destruct (skipws (rdbuf ist)) as [| c s']; [discriminate |].
  change (num_get int16_t (String c s') = (ist1, Some b)) in H.
  apply num_get_stored in H; [| reflexivity].
  exact H.
Qed.

(** Reading back what the numeric inserter wrote. *)
Lemma num_get_num_put (U : Integer) (v : Z) :
  1 < sizeof U ->
  representable U v ->
  num_get U (num_put v) =
  ({| rdbuf := EmptyString; badbit := false; eofbit := true;
      failbit := false |}, Some v).
Proof.
  intros Hsz [Hlo Hhi]. unfold num_get, num_put.
  destruct (Z.ltb_spec v 0) as [Hneg | Hpos].
  - cbn [scan_sign]. rewrite scan_digits_digits by lia.
    destruct U as [| bytes [|]]; [simpl in Hsz; lia | |].
    + unfold num_get_convert. rewrite Z.opp_involutive.
      destruct (Z.gtb_spec v (numeric_limits.max (int_t bytes true)));
        [lia |].
      destruct (Z.ltb_spec v (numeric_limits.min (int_t bytes true)));
        [lia | reflexivity].
    + change (numeric_limits.min (int_t bytes false)) with 0 in Hlo. lia.
  - destruct (digits_head v) as (d & rest & Hd & E).
    rewrite E, scan_sign_digit_char by assumption. cbv beta iota.
    rewrite <- E, scan_digits_digits by assumption.
    assert (Hconv : num_get_convert U false v = (v, false)).
    { destruct U as [| bytes [|]]; [simpl in Hsz; lia | |];
        unfold num_get_convert.
      - destruct (Z.gtb_spec v (numeric_limits.max (int_t bytes true)));
          [lia |].
        destruct (Z.ltb_spec v (numeric_limits.min (int_t bytes true)));
          [lia | reflexivity].
      - destruct (Z.gtb_spec v (numeric_limits.max (int_t bytes false)));
          [lia | reflexivity]. }
    rewrite Hconv. reflexivity.
Qed.

Lemma skipws_num_put (v : Z) :
  exists c s', num_put v = String c s' /\ skipws (num_put v) = String c s'.
Proof.
  unfold num_put. destruct (v <? 0).
  - eexists _, _. split; reflexivity.
  - destruct (digits_head v) as (d & rest & Hd & ->).
    eexists _, _. split; [reflexivity |].
    cbn [skipws]. rewrite isspace_digit_char by assumption. reflexivity.
Qed.

Lemma extract_num_put (U : Integer) (v : Z) :
  1 < sizeof U ->
  representable U v ->
  extract U (istringstream (num_put v)) =
  ({| rdbuf := EmptyString; badbit := false; eofbit := true;
      failbit := false |}, Some v).
Proof.
  intros Hsz Hrep.
  destruct (skipws_num_put v) as (c & s' & E & Hws).
  rewrite (extract_wide U (istringstream (num_put v)) c s' Hsz eq_refl Hws).
  rewrite <- E. apply num_get_num_put; assumption.
Qed.

Lemma insert_wide (U : Integer) (x : Z) (os : ostream) :
  1 < sizeof U -> insert U x os = (os ++ num_put x)%string.
Proof.
  intros Hsz. destruct U as [| [p | p |] sgn]; try reflexivity.
  simpl in Hsz. lia.
Qed.

(** ** The one-byte parsers, branch by branch *)

Lemma int_mul_minus_one (b : Z) :
  -32768 <= b <= 32767 -> int_mul b (-1) = Some (- b).
Proof.
  intros H. unfold int_mul, int_result.
  replace (b * -1) with (- b) by lia.
  assert (E : representableb int (- b) = true).
  { apply representable_iff. unfold representable.
    change (numeric_limits.min int) with (-2147483648).
    change (numeric_limits.max int) with 2147483647. lia. }
  rewrite E. reflexivity.
Qed.

Lemma int_add_small (a b : Z) :
  -100000 <= a <= 100000 -> -100000 <= b <= 100000 ->
  int_add a b = Some (a + b).
Proof.
  intros Ha Hb. unfold int_add, int_result.
  assert (E : representableb int (a + b) = true).
  { apply representable_iff. unfold representable.
    change (numeric_limits.min int) with (-2147483648).
    change (numeric_limits.max int) with 2147483647. lia. }
  rewrite E. reflexivity.
Qed.

(** The limits of a one-byte type fit the 16-bit buffer unchanged. *)
Lemma one_byte_limits (T : Integer) :
  sizeof T = 1 ->
  static_cast int16_t (numeric_limits.max T) = numeric_limits.max T /\
  static_cast int16_t (numeric_limits.min T) = numeric_limits.min T /\
  -128 <= numeric_limits.min T <= 0 /\
  1 <= numeric_limits.max T <= 255.
Proof.
  intros H. destruct (one_byte_cases T H) as [-> | [-> | ->]];
    vm_compute; intuition congruence.
Qed.

(** A value of a one-byte type converts to itself. *)
Lemma static_cast_representable (T : Integer) (v : Z) :
  sizeof T = 1 -> representable T v -> static_cast T v = v.
Proof.
  intros H. unfold representable.
  destruct (one_byte_cases T H) as [-> | [-> | ->]].
  - change (numeric_limits.min bool_t) with 0.
    change (numeric_limits.max bool_t) with 1. intros Hv.
    assert (v = 0 \/ v = 1) as [-> | ->] by lia; reflexivity.
  - change (numeric_limits.min int8_t) with (-128).
    change (numeric_limits.max int8_t) with 127. intros Hv.
    unfold static_cast, int8_t.
    change (2 ^ (bits (int_t 1 true) - 1)) with 128.
    change (2 ^ bits (int_t 1 true)) with 256.
    rewrite Z.mod_small by lia. lia.
  - change (numeric_limits.min uint8_t) with 0.
    change (numeric_limits.max uint8_t) with 255. intros Hv.
    unfold static_cast, uint8_t.
    change (2 ^ bits (int_t 1 false)) with 256.
    apply Z.mod_small. lia.
Qed.

(** Values of one-byte types, and everything in between, survive the
    promotion to either 16-bit type. *)
Lemma static_cast_int16_small (v : Z) :
  -32768 <= v <= 32767 -> static_cast int16_t v = v.
Proof.
  intros Hv. unfold static_cast, int16_t.
  change (2 ^ (bits (int_t 2 true) - 1)) with 32768.
  change (2 ^ bits (int_t 2 true)) with 65536.
  rewrite Z.mod_small by lia. lia.
Qed.

Lemma static_cast_uint16_small (v : Z) :
  0 <= v <= 65535 -> static_cast uint16_t v = v.
Proof.
  intros Hv. unfold static_cast, uint16_t.
  change (2 ^ bits (int_t 2 false)) with 65536.
  apply Z.mod_small. lia.
Qed.

(** [integral_io_wrapper<Integer, Integer, 1, false>::input] once the
    source has stored [b] in the buffer: no undefined behaviour, and the
    four branches in terms of [b]. *)
Lemma byte_unsigned_input_stored (T : Integer) (ist ist1 : istream)
      (b m_value : Z) :
  sizeof T = 1 ->
  is_signed T = false ->
  extract int16_t ist = (ist1, Some b) ->
  integral_io_wrapper.input T ist m_value =
  Some (if b >? numeric_limits.max T then
          (setstate_failbit ist1, numeric_limits.max T)
        else if b <? 0 then
          if - b <=? numeric_limits.max T then
            (ist1, numeric_limits.max T + b + 1)
          else (setstate_failbit ist1, numeric_limits.max T)
        else (ist1, b)).
Proof.
  intros Hsz Hsg Hex.
  destruct (extract_int16_stored _ _ _ Hex) as [Hb _].
  destruct (one_byte_limits T Hsz) as (Emax & _ & Hmin & Hmax).
  assert (Hmin0 : numeric_limits.min T = 0).
  { destruct (one_byte_unsigned T Hsz Hsg) as [-> | ->]; reflexivity. }
  assert (Hin : integral_io_wrapper.input T =
                integral_io_wrapper.byte_unsigned.input T).
  { destruct (one_byte_unsigned T Hsz Hsg) as [-> | ->]; reflexivity. }
  rewrite Hin. unfold integral_io_wrapper.byte_unsigned.input.
  rewrite Hex. cbn [bind]. rewrite Emax.
  destruct (Z.gtb_spec b (numeric_limits.max T)); [reflexivity |].
  destruct (Z.ltb_spec b 0).
  - rewrite int_mul_minus_one by assumption. cbn [bind].
    destruct (Z.leb_spec (- b) (numeric_limits.max T)); [| reflexivity].
    rewrite int_add_small by lia. cbn [bind].
    rewrite int_add_small by lia. cbn [bind].
    rewrite static_cast_representable;
      [reflexivity | assumption | unfold representable; lia].
  - rewrite static_cast_representable;
      [reflexivity | assumption | unfold representable; lia].
Qed.

(** [integral_io_wrapper<Integer, Integer, 1, true>::input] once the source
    has stored [b] in the buffer. *)
Lemma byte_signed_input_stored (T : Integer) (ist ist1 : istream)
      (b m_value : Z) :
  sizeof T = 1 ->
  is_signed T = true ->
  extract int16_t ist = (ist1, Some b) ->
  integral_io_wrapper.input T ist m_value =
  Some (if b >? numeric_limits.max T then
          (setstate_failbit ist1, numeric_limits.max T)
        else if b <? numeric_limits.min T then
          (setstate_failbit ist1, numeric_limits.min T)
        else (ist1, b)).
Proof.
  intros Hsz Hsg Hex.
  destruct (one_byte_limits T Hsz) as (Emax & Emin & _).
  assert (Hin : integral_io_wrapper.input T =
                integral_io_wrapper.byte_signed.input T).
  { rewrite (one_byte_signed T Hsz Hsg). reflexivity. }
  rewrite Hin. unfold integral_io_wrapper.byte_signed.input.
  rewrite Hex. cbn [bind]. rewrite Emax, Emin.
  destruct (Z.gtb_spec b (numeric_limits.max T)); [reflexivity |].
  destruct (Z.ltb_spec b (numeric_limits.min T)); [reflexivity |].
  rewrite static_cast_representable;
    [reflexivity | assumption | unfold representable; lia].
Qed.

Lemma failbit_setstate (ist : istream) : failbit (setstate_failbit ist) = true.
Proof. reflexivity. Qed.

(** ** Narrowing Parser: unsigned one-byte targets *)

(** C1.  For a one-byte unsigned target [T] and a buffer value [b] with
    [-max(T) <= b < 0], parsing stores the wraparound value
    [max(T) + b + 1] (which is [max(T) + 1 - magnitude] and [b] modulo
    [max(T) + 1]) and signals no failure: the stream is left as the source
    left it, with [failbit] clear. *)
Theorem unsigned_byte_wraparound (T : Integer) (ist ist1 : istream)
        (b m_value : Z) :
  sizeof T = 1 ->
  is_signed T = false ->
  extract int16_t ist = (ist1, Some b) ->
  - numeric_limits.max T <= b < 0 ->
  integral_io_wrapper.input T ist m_value =
    Some (ist1, numeric_limits.max T + b + 1) /\
  failbit ist1 = false /\
  numeric_limits.max T + b + 1 = numeric_limits.max T + 1 - (- b) /\
  numeric_limits.max T + b + 1 = b mod (numeric_limits.max T + 1).
Proof.
  intros Hsz Hsg Hex Hb.
  destruct (one_byte_limits T Hsz) as (_ & _ & _ & Hmax).
  rewrite (byte_unsigned_input_stored T ist ist1 b m_value Hsz Hsg Hex).
  destruct (Z.gtb_spec b (numeric_limits.max T)); [lia |].
  destruct (Z.ltb_spec b 0); [| lia].
  destruct (Z.leb_spec (- b) (numeric_limits.max T)); [| lia].
  split; [reflexivity |]. split; [| split; [lia |]].
  - destruct (extract_int16_stored _ _ _ Hex) as [_ Hfail].
    destruct (failbit ist1); [| reflexivity].
    specialize (Hfail eq_refl). lia.
  - rewrite <- (Z_mod_plus_full b 1 (numeric_limits.max T + 1)).
    rewrite Z.mod_small; lia.
Qed.

Lemma unsigned_byte_wraparound_witness :
  sizeof uint8_t = 1 /\
  is_signed uint8_t = false /\
  - numeric_limits.max uint8_t <= -1 < 0 /\
  integral_io_wrapper.input uint8_t (istringstream "-1") 0 =
    Some ({| rdbuf := EmptyString; badbit := false; eofbit := true;
             failbit := false |}, 255).
Proof.
  split; [reflexivity |]. split; [reflexivity |].
  assert (H : - numeric_limits.max uint8_t <= -1 < 0)
    by (change (numeric_limits.max uint8_t) with 255; lia).
  split; [exact H |].
  exact (proj1 (unsigned_byte_wraparound uint8_t (istringstream "-1") _ (-1) 0
                  eq_refl eq_refl eq_refl H)).
Defined.

Example parse_minus_255_into_uint8 :
  integral_io_wrapper.input uint8_t (istringstream "-255") 0 =
  Some ({| rdbuf := EmptyString; badbit := false; eofbit := true;
           failbit := false |},
        1).
Proof. reflexivity. Qed.

Example parse_minus_1_into_bool :
  integral_io_wrapper.input bool_t (istringstream "-1") 0 =
  Some ({| rdbuf := EmptyString; badbit := false; eofbit := true;
           failbit := false |},
        1).
Proof. reflexivity. Qed.

(** C3.  For a one-byte unsigned target [T], a buffer value above [max(T)]
    and a negative buffer value whose magnitude exceeds [max(T)] both clamp
    the target to [max(T)] and set [failbit]. *)
Theorem unsigned_byte_clamps (T : Integer) (ist ist1 : istream)
        (b m_value : Z) :
  sizeof T = 1 ->
  is_signed T = false ->
  extract int16_t ist = (ist1, Some b) ->
  b > numeric_limits.max T \/ (b < 0 /\ - b > numeric_limits.max T) ->
  integral_io_wrapper.input T ist m_value =
    Some (setstate_failbit ist1, numeric_limits.max T) /\
  failbit (setstate_failbit ist1) = true.
Proof.
  intros Hsz Hsg Hex Hb.
  destruct (one_byte_limits T Hsz) as (_ & _ & _ & Hmax).
  rewrite (byte_unsigned_input_stored T ist ist1 b m_value Hsz Hsg Hex).
  split; [| reflexivity].
  destruct (Z.gtb_spec b (numeric_limits.max T)); [reflexivity |].
  destruct (Z.ltb_spec b 0); [| lia].
  destruct (Z.leb_spec (- b) (numeric_limits.max T)); [lia | reflexivity].
Qed.

Lemma unsigned_byte_clamps_witness :
  sizeof uint8_t = 1 /\
  is_signed uint8_t = false /\
  300 > numeric_limits.max uint8_t /\
  integral_io_wrapper.input uint8_t (istringstream "300") 0 =
    Some ({| rdbuf := EmptyString; badbit := false; eofbit := true;
             failbit := true |}, 255).
Proof.
  split; [reflexivity |]. split; [reflexivity |].
  assert (H : 300 > numeric_limits.max uint8_t)
    by (change (numeric_limits.max uint8_t) with 255; lia).
  split; [exact H |].
  exact (proj1 (unsigned_byte_clamps uint8_t (istringstream "300") _ 300 0
                  eq_refl eq_refl eq_refl (or_introl H))).
Defined.

Example parse_minus_256_into_uint8 :
  integral_io_wrapper.input uint8_t (istringstream "-256") 0 =
  Some ({| rdbuf := EmptyString; badbit := false; eofbit := true;
           failbit := true |},
        255).
Proof. reflexivity. Qed.

(** C10.  For every buffer value [b] of the signed 16-bit range, down to
    -32768, the unsigned one-byte parser is well defined: [temp * -1] is
    evaluated in [int] without overflow; some text makes the source store
    [b]; and whenever the source stores [b], the value falls into exactly
    one of the four branches (overflow clamp, wraparound, large-magnitude
    clamp, exact fit) and the target ends up holding a value of [T]. *)
Theorem unsigned_byte_well_defined (T : Integer) (b : Z) :
  sizeof T = 1 ->
  is_signed T = false ->
  representable int16_t b ->
  let M := numeric_limits.max T in
  let overflow := M < b in
  let wrap := b < 0 /\ - b <= M in
  let large := b < 0 /\ M < - b in
  let exact := 0 <= b <= M in
  int_mul b (-1) = Some (- b) /\
  (exists ist1, extract int16_t (istringstream (num_put b)) = (ist1, Some b)) /\
  forall ist ist1 m_value,
    extract int16_t ist = (ist1, Some b) ->
    let result := integral_io_wrapper.input T ist m_value in
    (exists ist2 v, result = Some (ist2, v) /\ representable T v) /\
    ((overflow /\ ~ wrap /\ ~ large /\ ~ exact /\
      result = Some (setstate_failbit ist1, M)) \/
     (wrap /\ ~ overflow /\ ~ large /\ ~ exact /\
      result = Some (ist1, M + b + 1)) \/
     (large /\ ~ overflow /\ ~ wrap /\ ~ exact /\
      result = Some (setstate_failbit ist1, M)) \/
     (exact /\ ~ overflow /\ ~ wrap /\ ~ large /\
      result = Some (ist1, b))).
Proof.
  intros Hsz Hsg Hrep M overflow wrap large exact.
  assert (Hb : -32768 <= b <= 32767) by exact Hrep.
  destruct (one_byte_limits T Hsz) as (_ & _ & _ & Hmax).
  assert (Hmin0 : numeric_limits.min T = 0).
  { destruct (one_byte_unsigned T Hsz Hsg) as [-> | ->]; reflexivity. }
  split; [apply int_mul_minus_one; exact Hb |].
  split; [eexists; apply extract_num_put; [reflexivity | exact Hrep] |].
  intros ist ist1 m_value Hex result.
  subst result overflow wrap large exact M.
  rewrite (byte_unsigned_input_stored T ist ist1 b m_value Hsz Hsg Hex).
  unfold representable. rewrite Hmin0.
  destruct (Z.gtb_spec b (numeric_limits.max T)).
  - split; [eexists _, _; split; [reflexivity | lia] |].
    left. repeat split; try reflexivity; lia.
  - destruct (Z.ltb_spec b 0).
    + destruct (Z.leb_spec (- b) (numeric_limits.max T)).
      * split; [eexists _, _; split; [reflexivity | lia] |].
        right; left. repeat split; try reflexivity; lia.
      * split; [eexists _, _; split; [reflexivity | lia] |].
        right; right; left. repeat split; try reflexivity; lia.
    + split; [eexists _, _; split; [reflexivity | lia] |].
      right; right; right. repeat split; try reflexivity; lia.
Qed.

Lemma unsigned_byte_well_defined_witness :
  sizeof uint8_t = 1 /\
  is_signed uint8_t = false /\
  representable int16_t (-32768) /\
  int_mul (-32768) (-1) = Some 32768 /\
  exists ist2 v,
    integral_io_wrapper.input uint8_t (istringstream "-32768") 0 =
      Some (ist2, v) /\
    representable uint8_t v.
Proof.
  split; [reflexivity |]. split; [reflexivity |].
  assert (Hrep : representable int16_t (-32768)).
  { unfold representable.
    change (numeric_limits.min int16_t) with (-32768).
    change (numeric_limits.max int16_t) with 32767. lia. }
  split; [exact Hrep |].
  pose proof (unsigned_byte_well_defined uint8_t (-32768)
                eq_refl eq_refl Hrep) as H.
  cbv zeta in H. destruct H as (Hmul & _ & H).
  split; [exact Hmul |].
  exact (proj1 (H (istringstream "-32768") _ 0 eq_refl)).
Defined.

(** ** Narrowing Parser: signed one-byte targets *)

(** C2.  For a one-byte signed target [T] and buffer value [b]: above
    [max(T)] the target becomes [max(T)] and [failbit] is set; below
    [min(T)] the target becomes [min(T)] and [failbit] is set; otherwise the
    target becomes [b] narrowed, which is [b], and the parser signals
    nothing (the stream stays as the source left it).  [b = max(T)] and
    [b = min(T)] are in the last case. *)
Theorem signed_byte_narrowing (T : Integer) (ist ist1 : istream)
        (b m_value : Z) :
  sizeof T = 1 ->
  is_signed T = true ->
  extract int16_t ist = (ist1, Some b) ->
  (b > numeric_limits.max T ->
   integral_io_wrapper.input T ist m_value =
     Some (setstate_failbit ist1, numeric_limits.max T)) /\
  (b < numeric_limits.min T ->
   integral_io_wrapper.input T ist m_value =
     Some (setstate_failbit ist1, numeric_limits.min T)) /\
  (numeric_limits.min T <= b <= numeric_limits.max T ->
   integral_io_wrapper.input T ist m_value = Some (ist1, b) /\
   static_cast T b = b) /\
  failbit (setstate_failbit ist1) = true.
Proof.
  intros Hsz Hsg Hex.
  destruct (one_byte_limits T Hsz) as (_ & _ & Hmin & Hmax).
  rewrite (byte_signed_input_stored T ist ist1 b m_value Hsz Hsg Hex).
  destruct (Z.gtb_spec b (numeric_limits.max T));
    destruct (Z.ltb_spec b (numeric_limits.min T));
    repeat split; intros; try reflexivity; try lia.
  apply static_cast_representable; assumption.
Qed.

Lemma signed_byte_narrowing_witness :
  sizeof int8_t = 1 /\
  is_signed int8_t = true /\
  numeric_limits.max int8_t = 127 /\
  integral_io_wrapper.input int8_t (istringstream "127") 0 =
    Some ({| rdbuf := EmptyString; badbit := false; eofbit := true;
             failbit := false |}, 127).
Proof.
  split; [reflexivity |]. split; [reflexivity |]. split; [reflexivity |].
  pose proof (signed_byte_narrowing int8_t (istringstream "127") _ 127 0
                eq_refl eq_refl eq_refl) as (_ & _ & H & _).
  apply H. change (numeric_limits.min int8_t) with (-128).
  change (numeric_limits.max int8_t) with 127. lia.
Defined.

Example parse_200_into_int8 :
  integral_io_wrapper.input int8_t (istringstream "200") 0 =
  Some ({| rdbuf := EmptyString; badbit := false; eofbit := true;
           failbit := true |},
        127).
Proof. reflexivity. Qed.

Example parse_minus_200_into_int8 :
  integral_io_wrapper.input int8_t (istringstream "-200") 0 =
  Some ({| rdbuf := EmptyString; badbit := false; eofbit := true;
           failbit := true |},
        -128).
Proof. reflexivity. Qed.

Example parse_minus_128_into_int8 :
  integral_io_wrapper.input int8_t (istringstream "-128") 0 =
  Some ({| rdbuf := EmptyString; badbit := false; eofbit := true;
           failbit := false |},
        -128).
Proof. reflexivity. Qed.

(** ** A failure of the Text Source *)

(** C4, as stated, fails.  The text "abc" makes the source fail, and the
    parser overwrites a target holding 42 with the 0 the source left in the
    buffer; so it is not true that a source failure leaves every one-byte
    target unchanged. *)
Lemma malformed_text_overwrites_target :
  extract int16_t (istringstream "abc") =
    ({| rdbuf := "abc"; badbit := false; eofbit := false;
        failbit := true |}, Some 0) /\
  integral_io_wrapper.input uint8_t (istringstream "abc") 42 =
    Some ({| rdbuf := "abc"; badbit := false; eofbit := false;
             failbit := true |}, 0) /\
  ~ (forall T ist m_value ist2 v,
        sizeof T = 1 ->
        failbit (fst (extract int16_t ist)) = true ->
        integral_io_wrapper.input T ist m_value = Some (ist2, v) ->
        v = m_value).
Proof.
  split; [reflexivity |]. split; [reflexivity |].
  intros H.
  specialize (H uint8_t (istringstream "abc") 42 _ 0 eq_refl eq_refl eq_refl).
  discriminate H.
Qed.

(** C4, amended.  When the source fails after storing a value [b] in the
    buffer, [b] is 0 (malformed numeral) or a limit of the 16-bit range
    (numeral out of that range), and a one-byte parser narrows it like any
    other: the target, whatever it held, becomes 0 for [b = 0], [max(T)]
    for the upper limit, and for the lower limit [min(T)] when [T] is
    signed and [max(T)] when it is unsigned; [failbit] stays set and
    nothing more is consumed. *)
Theorem source_failure_is_narrowed (T : Integer) (ist ist1 : istream)
        (b m_value : Z) :
  sizeof T = 1 ->
  extract int16_t ist = (ist1, Some b) ->
  failbit ist1 = true ->
  (b = 0 \/ b = 32767 \/ b = -32768) /\
  exists ist2,
    integral_io_wrapper.input T ist m_value =
      Some (ist2,
            if b =? 0 then 0
            else if b >? 0 then numeric_limits.max T
            else if is_signed T then numeric_limits.min T
            else numeric_limits.max T) /\
    failbit ist2 = true /\
    rdbuf ist2 = rdbuf ist1.
Proof.
  intros Hsz Hex Hfail.
  destruct (extract_int16_stored _ _ _ Hex) as [_ Hb].
  specialize (Hb Hfail). split; [exact Hb |].
  destruct (one_byte_limits T Hsz) as (_ & _ & Hmin & Hmax).
  destruct (is_signed T) eqn:Hsg.
  - rewrite (byte_signed_input_stored T ist ist1 b m_value Hsz Hsg Hex).
    destruct Hb as [-> | [-> | ->]]; cbn [Z.eqb Z.gtb Z.compare].
    + destruct (Z.gtb_spec 0 (numeric_limits.max T)); [lia |].
      destruct (Z.ltb_spec 0 (numeric_limits.min T)); [lia |].
      exists ist1. auto.
    + destruct (Z.gtb_spec 32767 (numeric_limits.max T)); [| lia].
      eexists. split; [reflexivity |]. split; reflexivity.
    + destruct (Z.gtb_spec (-32768) (numeric_limits.max T)); [lia |].
      destruct (Z.ltb_spec (-32768) (numeric_limits.min T)); [| lia].
      eexists. split; [reflexivity |]. split; reflexivity.
  - rewrite (byte_unsigned_input_stored T ist ist1 b m_value Hsz Hsg Hex).
    destruct Hb as [-> | [-> | ->]]; cbn [Z.eqb Z.gtb Z.compare].
    + destruct (Z.gtb_spec 0 (numeric_limits.max T)); [lia |].
      cbn [Z.ltb Z.compare]. exists ist1. auto.
    + destruct (Z.gtb_spec 32767 (numeric_limits.max T)); [| lia].
      eexists. split; [reflexivity |]. split; reflexivity.
    + destruct (Z.gtb_spec (-32768) (numeric_limits.max T)); [lia |].
      cbn [Z.ltb Z.compare Z.opp].
      destruct (Z.leb_spec 32768 (numeric_limits.max T)); [lia |].
      eexists. split; [reflexivity |]. split; reflexivity.
Qed.

Lemma source_failure_is_narrowed_witness :
  sizeof int8_t = 1 /\
  extract int16_t (istringstream "-99999 x") =
    ({| rdbuf := " x"; badbit := false; eofbit := false; failbit := true |},
     Some (-32768)) /\
  exists ist2,
    integral_io_wrapper.input int8_t (istringstream "-99999 x") 42 =
      Some (ist2, -128) /\
    failbit ist2 = true /\
    rdbuf ist2 = " x"%string.
Proof.
  split; [reflexivity |]. split; [reflexivity |].
  exact (proj2 (source_failure_is_narrowed int8_t (istringstream "-99999 x") _
                  (-32768) 42 eq_refl eq_refl eq_refl)).
Defined.

(** ** Width Classifier *)

(** C5, as stated, fails: a one-byte unsigned type is promoted to the
    unsigned 16-bit type, not to the signed one. *)
Lemma trait_of_unsigned_byte_is_unsigned :
  integral_io_trait uint8_t = uint16_t /\
  is_signed (integral_io_trait uint8_t) = false /\
  integral_io_trait uint8_t <> int16_t.
Proof. repeat split; discriminate. Qed.

(** C5, amended.  The Width Classifier is a total function of the type: it
    yields [T] itself when [sizeof(T) > 1], the signed 16-bit type when [T]
    is one byte and signed, and the unsigned 16-bit type when [T] is one
    byte and unsigned.  The promoted type is always wider than a byte and
    has the signedness of [T]. *)
Theorem integral_io_trait_cases (T : Integer) :
  integral_io_trait T =
    (if 1 <? sizeof T then T
     else if is_signed T then int16_t else uint16_t) /\
  1 < sizeof (integral_io_trait T) /\
  is_signed (integral_io_trait T) = is_signed T.
Proof.
  destruct T as [| [p | p |] [|]]; repeat split; simpl; lia.
Qed.

(** ** Formatter *)

Lemma wide_dispatch (T : Integer) :
  1 < sizeof T ->
  integral_output_wrapper.output T = insert T /\
  integral_io_wrapper.output T = insert T /\
  integral_io_wrapper.input T = integral_io_wrapper.generic.input T.
Proof.
  intros Hsz. destruct T as [| [p | p |] [|]]; simpl in Hsz; try lia;
    repeat split.
Qed.

(** Both views write a one-byte value as the numeral the numeric inserter
    produces for it. *)
Lemma byte_output_wrapper_text (T : Integer) (v : Z) (os : ostream) :
  sizeof T = 1 ->
  representable T v ->
  integral_output_wrapper.output T v os = (os ++ num_put v)%string.
Proof.
  intros Hsz Hv. unfold representable in Hv.
  destruct (one_byte_cases T Hsz) as [-> | [-> | ->]].
  - change (numeric_limits.min bool_t) with 0 in Hv.
    change (numeric_limits.max bool_t) with 1 in Hv.
    change (integral_output_wrapper.output bool_t v os)
      with (insert uint16_t (static_cast uint16_t v) os).
    rewrite static_cast_uint16_small by lia. reflexivity.
  - change (numeric_limits.min int8_t) with (-128) in Hv.
    change (numeric_limits.max int8_t) with 127 in Hv.
    change (integral_output_wrapper.output int8_t v os)
      with (insert int16_t (static_cast int16_t v) os).
    rewrite static_cast_int16_small by lia. reflexivity.
  - change (numeric_limits.min uint8_t) with 0 in Hv.
    change (numeric_limits.max uint8_t) with 255 in Hv.
    change (integral_output_wrapper.output uint8_t v os)
      with (insert uint16_t (static_cast uint16_t v) os).
    rewrite static_cast_uint16_small by lia. reflexivity.
Qed.

Lemma byte_io_wrapper_text (T : Integer) (v : Z) (os : ostream) :
  sizeof T = 1 ->
  representable T v ->
  integral_io_wrapper.output T v os = (os ++ num_put v)%string.
Proof.
  intros Hsz Hv.
  destruct (one_byte_limits T Hsz) as (_ & _ & Hmin & Hmax).
  unfold representable in Hv.
  assert (E : integral_io_wrapper.output T v os =
              insert int16_t (static_cast int16_t v) os).
  { destruct (one_byte_cases T Hsz) as [-> | [-> | ->]]; reflexivity. }
  rewrite E, static_cast_int16_small by lia. reflexivity.
Qed.

Lemma code_glyph (v : Z) : code (glyph v) = v mod 256.
Proof.
  unfold code, glyph.
  pose proof (Z.mod_pos_bound v 256 ltac:(lia)) as Hm.
  rewrite N_ascii_embedding by lia.
  apply Z2N.id. lia.
Qed.

(** The numeral of [v] is never the one character whose code is [v]. *)
Lemma num_put_not_glyph (v : Z) : num_put v <> String (glyph v) EmptyString.
Proof.
  unfold num_put. destruct (Z.ltb_spec v 0) as [Hneg | Hpos]; intros E.
  - destruct (digits_head (- v)) as (d & rest & _ & Hd).
    rewrite Hd in E. discriminate E.
  - pose proof (scan_digits_digits v Hpos) as Hscan.
    rewrite E in Hscan. cbn [scan_digits] in Hscan.
    destruct (isdigit (glyph v)); [| discriminate Hscan].
    inversion Hscan as [Hval].
    unfold digit_value in Hval. rewrite code_glyph in Hval.
    pose proof (Z.mod_pos_bound v 256 ltac:(lia)).
    pose proof (Z.div_mod v 256 ltac:(lia)). lia.
Qed.

(** C7.  A one-byte value [v], through either view, is written as its
    decimal numeral: an optional minus sign and digits that read as the
    magnitude of [v].  That text is never the single character with code
    [v], which is what the stream writes for a bare character type.  For
    example the unsigned 8-bit 65 is written "65", not "A". *)
Theorem byte_formats_as_numeral (T : Integer) (v : Z) (os : ostream) :
  sizeof T = 1 ->
  representable T v ->
  integral_output_wrapper.output T v os = (os ++ num_put v)%string /\
  integral_io_wrapper.output T v os = (os ++ num_put v)%string /\
  (exists ds,
     num_put v = (if v <? 0 then String "-"%char ds else ds) /\
     scan_digits ds 0 false = (Z.abs v, true, EmptyString)) /\
  num_put v <> String (glyph v) EmptyString /\
  (T <> bool_t ->
   insert T v os = (os ++ String (glyph v) EmptyString)%string).
Proof.
  intros Hsz Hv.
  split; [apply byte_output_wrapper_text; assumption |].
  split; [apply byte_io_wrapper_text; assumption |].
  split; [| split; [apply num_put_not_glyph |]].
  - unfold num_put. destruct (Z.ltb_spec v 0).
    + exists (digits (- v)). split; [reflexivity |].
      rewrite Z.abs_neq by lia. apply scan_digits_digits. lia.
    + exists (digits v). split; [reflexivity |].
      rewrite Z.abs_eq by lia. apply scan_digits_digits. lia.
  - intros Hnb.
    destruct (one_byte_cases T Hsz) as [-> | [-> | ->]];
      [contradiction | reflexivity | reflexivity].
Qed.

Lemma byte_formats_as_numeral_witness :
  sizeof uint8_t = 1 /\
  representable uint8_t 65 /\
  integral_output_wrapper.output uint8_t 65 EmptyString = "65"%string /\
  integral_io_wrapper.output uint8_t 65 EmptyString = "65"%string /\
  "65"%string <> "A"%string /\
  insert uint8_t 65 EmptyString = "A"%string.
Proof.
  assert (Hv : representable uint8_t 65).
  { unfold representable.
    change (numeric_limits.min uint8_t) with 0.
    change (numeric_limits.max uint8_t) with 255. lia. }
  destruct (byte_formats_as_numeral uint8_t 65 EmptyString eq_refl Hv)
    as (H1 & H2 & _ & H3 & H4).
  split; [reflexivity |]. split; [exact Hv |].
  split; [exact H1 |]. split; [exact H2 |]. split; [exact H3 |].
  apply H4. discriminate.
Defined.



(** ** Round trips *)

(** A one-byte value is read back from its numeral, whatever the target
    held before. *)
Lemma byte_round_trip (T : Integer) (v m_value : Z) :
  sizeof T = 1 ->
  representable T v ->
  integral_io_wrapper.input T (istringstream (num_put v)) m_value =
  Some ({| rdbuf := EmptyString; badbit := false; eofbit := true;
           failbit := false |}, v).
Proof.
  intros Hsz Hv.
  destruct (one_byte_limits T Hsz) as (_ & _ & Hmin & Hmax).
  unfold representable in Hv.
  assert (Hex : extract int16_t (istringstream (num_put v)) =
                ({| rdbuf := EmptyString; badbit := false; eofbit := true;
                    failbit := false |}, Some v)).
  { apply extract_num_put; [reflexivity |]. unfold representable.
    change (numeric_limits.min int16_t) with (-32768).
    change (numeric_limits.max int16_t) with 32767. lia. }
  destruct (is_signed T) eqn:Hsg.
  - rewrite (byte_signed_input_stored T _ _ v m_value Hsz Hsg Hex).
    destruct (Z.gtb_spec v (numeric_limits.max T)); [lia |].
    destruct (Z.ltb_spec v (numeric_limits.min T)); [lia | reflexivity].
  - assert (Hmin0 : numeric_limits.min T = 0).
    { destruct (one_byte_unsigned T Hsz Hsg) as [-> | ->]; reflexivity. }
    rewrite (byte_unsigned_input_stored T _ _ v m_value Hsz Hsg Hex).
    destruct (Z.gtb_spec v (numeric_limits.max T)); [lia |].
    destruct (Z.ltb_spec v 0); [lia | reflexivity].
Qed.

(** C6.  For a type wider than one byte and any of its values [v], parsing
    the text that formatting [v] produced (through either view) stores [v]
    itself and leaves [failbit] clear: both directions are the stream's
    own inserter and extractor for that type. *)
Theorem wide_round_trip (T : Integer) (v m_value : Z) :
  1 < sizeof T ->
  representable T v ->
  integral_io_wrapper.output T v EmptyString = insert T v EmptyString /\
  integral_output_wrapper.output T v EmptyString = insert T v EmptyString /\
  integral_io_wrapper.input T
    (istringstream (integral_io_wrapper.output T v EmptyString)) m_value =
    Some ({| rdbuf := EmptyString; badbit := false; eofbit := true;
             failbit := false |}, v) /\
  integral_io_wrapper.input T
    (istringstream (integral_output_wrapper.output T v EmptyString)) m_value =
    Some ({| rdbuf := EmptyString; badbit := false; eofbit := true;
             failbit := false |}, v).
Proof.
  intros Hsz Hv.
  destruct (wide_dispatch T Hsz) as (E1 & E2 & E3).
  rewrite E1, E2, E3.
  split; [reflexivity |]. split; [reflexivity |].
  rewrite insert_wide by assumption.
  change (EmptyString ++ num_put v)%string with (num_put v).
  unfold integral_io_wrapper.generic.input.
  rewrite extract_num_put by assumption.
  split; reflexivity.
Qed.

Lemma wide_round_trip_witness :
  1 < sizeof int /\
  representable int (-2147483648) /\
  integral_io_wrapper.output int (-2147483648) EmptyString
    = "-2147483648"%string /\
  integral_io_wrapper.input int (istringstream "-2147483648") 0 =
    Some ({| rdbuf := EmptyString; badbit := false; eofbit := true;
             failbit := false |}, -2147483648).
Proof.
  assert (Hsz : 1 < sizeof int) by (change (sizeof int) with 4; lia).
  assert (Hv : representable int (-2147483648)).
  { unfold representable.
    change (numeric_limits.min int) with (-2147483648).
    change (numeric_limits.max int) with 2147483647. lia. }
  destruct (wide_round_trip int (-2147483648) 0 Hsz Hv) as (_ & _ & H & _).
  split; [exact Hsz |]. split; [exact Hv |]. split; [reflexivity |].
  exact H.
Defined.

Example uint64_round_trip :
  integral_io_wrapper.input (int_t 8 false)
    (istringstream
       (integral_output_wrapper.output (int_t 8 false) 18446744073709551615
          EmptyString)) 0 =
  Some ({| rdbuf := EmptyString; badbit := false; eofbit := true;
           failbit := false |}, 18446744073709551615).
Proof. reflexivity. Qed.

(** C8.  A parse into a one-byte target that clamps leaves [max(T)] or
    [min(T)] in it.  Parsing the decimal text of either boundary value (as
    either view writes it) into [T] stores the same value again with
    [failbit] clear: no failure and no further clamping, for signed and
    unsigned targets alike and whichever parse produced the value. *)
Theorem clamped_value_reparses (T : Integer) (v m_value' : Z) :
  sizeof T = 1 ->
  v = numeric_limits.max T \/ v = numeric_limits.min T ->
  integral_io_wrapper.input T
    (istringstream (integral_io_wrapper.output T v EmptyString)) m_value' =
    Some ({| rdbuf := EmptyString; badbit := false; eofbit := true;
             failbit := false |}, v) /\
  integral_io_wrapper.input T
    (istringstream (integral_output_wrapper.output T v EmptyString)) m_value' =
    Some ({| rdbuf := EmptyString; badbit := false; eofbit := true;
             failbit := false |}, v).
Proof.
  intros Hsz Hv.
  destruct (one_byte_limits T Hsz) as (_ & _ & Hmin & Hmax).
  assert (Hrep : representable T v)
    by (unfold representable; destruct Hv; subst; lia).
  rewrite byte_io_wrapper_text, byte_output_wrapper_text by assumption.
  change (EmptyString ++ num_put v)%string with (num_put v).
  split; apply byte_round_trip; assumption.
Qed.

(** Clamping parses into a signed, an unsigned and a [bool] target, each
    followed by the parse of the clamped value's own text. *)
Lemma clamped_value_reparses_witness :
  (integral_io_wrapper.input int8_t (istringstream "200") 0 =
     Some ({| rdbuf := EmptyString; badbit := false; eofbit := true;
              failbit := true |}, 127) /\
   127 = numeric_limits.max int8_t /\
   integral_io_wrapper.output int8_t 127 EmptyString = "127"%string /\
   integral_io_wrapper.input int8_t
     (istringstream (integral_io_wrapper.output int8_t 127 EmptyString)) 55 =
     Some ({| rdbuf := EmptyString; badbit := false; eofbit := true;
              failbit := false |}, 127)) /\
  (integral_io_wrapper.input int8_t (istringstream "-200") 0 =
     Some ({| rdbuf := EmptyString; badbit := false; eofbit := true;
              failbit := true |}, -128) /\
   -128 = numeric_limits.min int8_t /\
   integral_io_wrapper.output int8_t (-128) EmptyString = "-128"%string /\
   integral_io_wrapper.input int8_t
     (istringstream (integral_io_wrapper.output int8_t (-128) EmptyString))
     55 =
     Some ({| rdbuf := EmptyString; badbit := false; eofbit := true;
              failbit := false |}, -128)) /\
  (integral_io_wrapper.input uint8_t (istringstream "300") 0 =
     Some ({| rdbuf := EmptyString; badbit := false; eofbit := true;
              failbit := true |}, 255) /\
   255 = numeric_limits.max uint8_t /\
   integral_io_wrapper.output uint8_t 255 EmptyString = "255"%string /\
   integral_io_wrapper.input uint8_t
     (istringstream (integral_io_wrapper.output uint8_t 255 EmptyString))
     55 =
     Some ({| rdbuf := EmptyString; badbit := false; eofbit := true;
              failbit := false |}, 255)) /\
  (integral_io_wrapper.input bool_t (istringstream "-2") 0 =
     Some ({| rdbuf := EmptyString; badbit := false; eofbit := true;
              failbit := true |}, 1) /\
   1 = numeric_limits.max bool_t /\
   integral_io_wrapper.output bool_t 1 EmptyString = "1"%string /\
   integral_io_wrapper.input bool_t
     (istringstream (integral_io_wrapper.output bool_t 1 EmptyString)) 0 =
     Some ({| rdbuf := EmptyString; badbit := false; eofbit := true;
              failbit := false |}, 1)).
Proof.
  split; [| split; [| split]];
    (split; [reflexivity |]); (split; [reflexivity |]);
    (split; [reflexivity |]).
  - exact (proj1 (clamped_value_reparses int8_t 127 55
                    eq_refl (or_introl eq_refl))).
  - exact (proj1 (clamped_value_reparses int8_t (-128) 55
                    eq_refl (or_intror eq_refl))).
  - exact (proj1 (clamped_value_reparses uint8_t 255 55
                    eq_refl (or_introl eq_refl))).
  - exact (proj1 (clamped_value_reparses bool_t 1 0
                    eq_refl (or_introl eq_refl))).
Defined.

(** * Further properties of the header *)

(** ** Numerals followed by more text *)

Lemma append_assoc (a b c : string) :
  ((a ++ b) ++ c)%string = (a ++ (b ++ c))%string.
Proof.
  induction a as [| x a IH]; simpl; [reflexivity |].
  rewrite IH. reflexivity.
Qed.

Lemma int_to_char_append (fuel : nat) :
  forall v buf,
    int_to_char fuel v buf = (int_to_char fuel v EmptyString ++ buf)%string.
Proof.
  induction fuel as [| fuel IH]; intros v buf; [reflexivity |].
  cbn [int_to_char]. cbv zeta.
  destruct (v / 10 =? 0); [reflexivity |].
  rewrite IH.
  rewrite (IH (v / 10) (String (digit_char (v mod 10)) EmptyString)).
  rewrite append_assoc. reflexivity.
Qed.

Lemma scan_digits_stop (s : string) (n : Z) (any : bool) :
  starts_with_digit s = false -> scan_digits s n any = (n, any, s).
Proof.
  destruct s as [| c s]; intros H; cbn [scan_digits]; [reflexivity |].
  cbn [starts_with_digit] in H. rewrite H. reflexivity.
Qed.

Lemma scan_digits_digits_then (v : Z) (rest : string) :
  0 <= v ->
  starts_with_digit rest = false ->
  scan_digits (digits v ++ rest) 0 false = (v, true, rest).
Proof.
  intros Hv Hrest. unfold digits.
  rewrite <- int_to_char_append.
  destruct (scan_int_to_char _ v rest 0 false (digits_fuel v Hv)
              ltac:(lia)) as (k & _ & E).
  rewrite E. apply scan_digits_stop. exact Hrest.
Qed.

Lemma num_get_convert_representable_value (U : Integer) (v : Z) :
  1 < sizeof U ->
  representable U v ->
  num_get_convert U (v <? 0) (Z.abs v) = (v, false).
Proof.
  intros Hsz [Hlo Hhi].
  destruct U as [| bytes [|]]; [simpl in Hsz; lia | |];
    unfold num_get_convert.
  - replace (if v <? 0 then - Z.abs v else Z.abs v) with v
      by (destruct (Z.ltb_spec v 0); lia).
    destruct (Z.gtb_spec v (numeric_limits.max (int_t bytes true)));
      [lia |].
    destruct (Z.ltb_spec v (numeric_limits.min (int_t bytes true)));
      [lia | reflexivity].
  - change (numeric_limits.min (int_t bytes false)) with 0 in Hlo.
    rewrite Z.abs_eq by lia.
    destruct (Z.gtb_spec v (numeric_limits.max (int_t bytes false)));
      [lia |].
    destruct (Z.ltb_spec v 0); [lia | reflexivity].
Qed.

(** The numeric extractor reads a numeral back and stops at the first
    character that is not a digit. *)
Lemma num_get_num_put_then (U : Integer) (v : Z) (rest : string) :
  1 < sizeof U ->
  representable U v ->
  starts_with_digit rest = false ->
  num_get U (num_put v ++ rest) =
  ({| rdbuf := rest; badbit := false;
      eofbit := match rest with EmptyString => true | _ => false end;
      failbit := false |}, Some v).
Proof.
  intros Hsz Hrep Hrest.
  pose proof (num_get_convert_representable_value U v Hsz Hrep) as Hconv.
  unfold num_get, num_put.
  destruct (Z.ltb_spec v 0) as [Hneg | Hpos].
  - cbn [append scan_sign].
    rewrite scan_digits_digits_then by (assumption || lia).
    rewrite Z.abs_neq in Hconv by lia. rewrite Hconv. reflexivity.
  - destruct (digits_head v) as (d & ds & Hd & E).
    rewrite E. cbn [append]. rewrite scan_sign_digit_char by assumption.
    cbv beta iota.
    change (String (digit_char d) (ds ++ rest))
      with (String (digit_char d) ds ++ rest)%string.
    rewrite <- E, scan_digits_digits_then by assumption.
    rewrite Z.abs_eq in Hconv by lia. rewrite Hconv. reflexivity.
Qed.

Lemma skipws_num_put_then (v : Z) (rest : string) :
  exists c s',
    (num_put v ++ rest)%string = String c s' /\
    skipws (num_put v ++ rest) = String c s'.
Proof.
  unfold num_put. destruct (v <? 0).
  - eexists _, _. split; reflexivity.
  - destruct (digits_head v) as (d & ds & Hd & ->).
    eexists _, _. split; [reflexivity |].
    cbn [append skipws]. rewrite isspace_digit_char by assumption.
    reflexivity.
Qed.

(** [is >> x] on a good stream that holds, after white space, the numeral
    of [v] and then something that is not a digit. *)
Lemma extract_numeral (U : Integer) (ist : istream) (v : Z) (rest : string) :
  1 < sizeof U ->
  representable U v ->
  good ist = true ->
  skipws (rdbuf ist) = (num_put v ++ rest)%string ->
  starts_with_digit rest = false ->
  extract U ist =
  ({| rdbuf := rest; badbit := false;
      eofbit := match rest with EmptyString => true | _ => false end;
      failbit := false |}, Some v).
Proof.
  intros Hsz Hrep Hgood Hws Hrest.
  destruct (skipws_num_put_then v rest) as (c & s' & E & _).
  rewrite E in Hws.
  rewrite (extract_wide U ist c s' Hsz Hgood Hws), <- E.
  apply num_get_num_put_then; assumption.
Qed.

(** What [is >> x] stores for a type wider than a byte is a value of it. *)
Lemma extract_wide_stored (U : Integer) (ist ist1 : istream) (b : Z) :
  1 < sizeof U ->
  extract U ist = (ist1, Some b) ->
  representable U b.
Proof.
  intros Hsz H. unfold extract in H.
  destruct (good ist); [| discriminate]. cbn [negb] in H.
  destruct (skipws (rdbuf ist)) as [| c s']; [discriminate |].
  assert (E : num_get U (String c s') = (ist1, Some b)).
  { destruct U as [| [p | p |] sgn]; try exact H. simpl in Hsz. lia. }
  apply (num_get_stored U _ _ _ Hsz E).
Qed.

(** Nothing is stored when the stream is not good or holds only white
    space; [failbit] is set. *)
Lemma extract_nothing (U : Integer) (ist : istream) :
  good ist = false \/ skipws (rdbuf ist) = EmptyString ->
  exists ist1, extract U ist = (ist1, None) /\ failbit ist1 = true.
Proof.
  intros H. unfold extract.
  destruct (good ist) eqn:Hgood; cbn [negb].
  - destruct H as [H | H]; [discriminate |]. rewrite H.
    eexists. split; reflexivity.
  - eexists. split; reflexivity.
Qed.

(** ** One-byte values: round trip and characterisation of the parsers *)

(** X1.  Every value of a one-byte type, written through either view, is
    read back as itself with [failbit] clear, whatever the target held. *)
Theorem byte_value_round_trip (T : Integer) (v m_value : Z) :
  sizeof T = 1 ->
  representable T v ->
  read_as_integer T
    (istringstream (write_as_integer T EmptyString v)) m_value =
    Some ({| rdbuf := EmptyString; badbit := false; eofbit := true;
             failbit := false |}, v) /\
  read_as_integer T
    (istringstream (write_as_integer_const T EmptyString v)) m_value =
    Some ({| rdbuf := EmptyString; badbit := false; eofbit := true;
             failbit := false |}, v).
Proof.
  intros Hsz Hv.
  unfold read_as_integer, write_as_integer, write_as_integer_const.
  rewrite byte_io_wrapper_text, byte_output_wrapper_text by assumption.
  change (EmptyString ++ num_put v)%string with (num_put v).
  split; apply byte_round_trip; assumption.
Qed.

Lemma byte_value_round_trip_witness :
  sizeof int8_t = 1 /\
  representable int8_t (-128) /\
  write_as_integer int8_t EmptyString (-128) = "-128"%string /\
  read_as_integer int8_t (istringstream "-128") 0 =
    Some ({| rdbuf := EmptyString; badbit := false; eofbit := true;
             failbit := false |}, -128).
Proof.
  assert (Hv : representable int8_t (-128)).
  { unfold representable.
    change (numeric_limits.min int8_t) with (-128).
    change (numeric_limits.max int8_t) with 127. lia. }
  split; [reflexivity |]. split; [exact Hv |]. split; [reflexivity |].
  exact (proj1 (byte_value_round_trip int8_t (-128) 0 eq_refl Hv)).
Defined.

(** X2.  The signed one-byte parser saturates: whatever the source stored
    in the buffer, the target becomes that value clamped into
    [min(T) .. max(T)].  It consumes nothing and touches no flag other than
    [failbit], which ends up set exactly when the source had set it or the
    buffer was out of the range of [T]. *)
Theorem signed_byte_saturates (T : Integer) (ist ist1 : istream)
        (b m_value : Z) :
  sizeof T = 1 ->
  is_signed T = true ->
  extract int16_t ist = (ist1, Some b) ->
  exists ist2,
    read_as_integer T ist m_value =
      Some (ist2, Z.max (numeric_limits.min T)
                        (Z.min (numeric_limits.max T) b)) /\
    rdbuf ist2 = rdbuf ist1 /\
    badbit ist2 = badbit ist1 /\
    eofbit ist2 = eofbit ist1 /\
    failbit ist2 = failbit ist1 || negb (representableb T b).
Proof.
  intros Hsz Hsg Hex.
  destruct (one_byte_limits T Hsz) as (_ & _ & Hmin & Hmax).
  unfold read_as_integer, representableb.
  rewrite (byte_signed_input_stored T ist ist1 b m_value Hsz Hsg Hex).
  destruct (Z.gtb_spec b (numeric_limits.max T)).
  - exists (setstate_failbit ist1).
    rewrite Z.min_l, Z.max_r by lia.
    destruct (Z.leb_spec b (numeric_limits.max T)); [lia |].
    rewrite andb_false_r, orb_true_r. repeat split.
  - destruct (Z.ltb_spec b (numeric_limits.min T)).
    + exists (setstate_failbit ist1).
      rewrite Z.min_r, Z.max_l by lia.
      destruct (Z.leb_spec (numeric_limits.min T) b); [lia |].
      rewrite orb_true_r. repeat split.
    + exists ist1. rewrite Z.min_r, Z.max_r by lia.
      destruct (Z.leb_spec (numeric_limits.min T) b); [| lia].
      destruct (Z.leb_spec b (numeric_limits.max T)); [| lia].
      rewrite orb_false_r. repeat split.
Qed.

Lemma signed_byte_saturates_witness :
  sizeof int8_t = 1 /\
  is_signed int8_t = true /\
  exists ist2,
    read_as_integer int8_t (istringstream "-200,") 9 = Some (ist2, -128) /\
    rdbuf ist2 = ","%string /\
    badbit ist2 = false /\
    eofbit ist2 = false /\
    failbit ist2 = true.
Proof.
  split; [reflexivity |]. split; [reflexivity |].
  exact (signed_byte_saturates int8_t (istringstream "-200,") _ (-200) 9
           eq_refl eq_refl eq_refl).
Defined.

(** X3.  The unsigned one-byte parser rejects exactly the buffer values
    whose magnitude exceeds [max(T)]: for those the target becomes
    [max(T)].  It consumes nothing and touches no flag other than
    [failbit], which ends up set exactly when the source had set it or the
    magnitude was too large. *)
Theorem unsigned_byte_rejects_large_magnitude (T : Integer)
        (ist ist1 : istream) (b m_value : Z) :
  sizeof T = 1 ->
  is_signed T = false ->
  extract int16_t ist = (ist1, Some b) ->
  exists ist2 v,
    read_as_integer T ist m_value = Some (ist2, v) /\
    rdbuf ist2 = rdbuf ist1 /\
    badbit ist2 = badbit ist1 /\
    eofbit ist2 = eofbit ist1 /\
    failbit ist2 = failbit ist1 || (numeric_limits.max T <? Z.abs b) /\
    (numeric_limits.max T < Z.abs b -> v = numeric_limits.max T).
Proof.
  intros Hsz Hsg Hex.
  destruct (one_byte_limits T Hsz) as (_ & _ & _ & Hmax).
  unfold read_as_integer.
  rewrite (byte_unsigned_input_stored T ist ist1 b m_value Hsz Hsg Hex).
  destruct (Z.ltb_spec (numeric_limits.max T) (Z.abs b)) as [Hbig | Hfit].
  - exists (setstate_failbit ist1), (numeric_limits.max T).
    rewrite orb_true_r.
    destruct (Z.gtb_spec b (numeric_limits.max T)); [repeat split |].
    destruct (Z.ltb_spec b 0); [| lia].
    destruct (Z.leb_spec (- b) (numeric_limits.max T)); [lia |].
    repeat split.
  - rewrite orb_false_r.
    destruct (Z.gtb_spec b (numeric_limits.max T)); [lia |].
    destruct (Z.ltb_spec b 0).
    + destruct (Z.leb_spec (- b) (numeric_limits.max T)); [| lia].
      eexists _, _. repeat split. lia.
    + eexists _, _. repeat split. lia.
Qed.

Lemma unsigned_byte_rejects_large_magnitude_witness :
  sizeof uint8_t = 1 /\
  is_signed uint8_t = false /\
  exists ist2 v,
    read_as_integer uint8_t (istringstream "-256 7") 0 = Some (ist2, v) /\
    rdbuf ist2 = " 7"%string /\
    failbit ist2 = true /\
    v = 255.
Proof.
  split; [reflexivity |]. split; [reflexivity |].
  destruct (unsigned_byte_rejects_large_magnitude uint8_t
              (istringstream "-256 7") _ (-256) 0 eq_refl eq_refl eq_refl)
    as (ist2 & v & H & Hbuf & _ & _ & Hfail & Hv).
  exists ist2, v. split; [exact H |]. split; [exact Hbuf |].
  split; [exact Hfail |].
  apply Hv. change (numeric_limits.max uint8_t) with 255. lia.
Defined.

(** X4.  Every buffer value the unsigned one-byte parser accepts, negative
    or not, is stored as the language's own conversion to [T] would store
    it: the target becomes [static_cast<T>(b)] and the parser signals
    nothing. *)
Theorem unsigned_byte_accepts_as_static_cast (T : Integer)
        (ist ist1 : istream) (b m_value : Z) :
  sizeof T = 1 ->
  is_signed T = false ->
  extract int16_t ist = (ist1, Some b) ->
  Z.abs b <= numeric_limits.max T ->
  read_as_integer T ist m_value = Some (ist1, static_cast T b).
Proof.
  intros Hsz Hsg Hex Hb.
  unfold read_as_integer.
  rewrite (byte_unsigned_input_stored T ist ist1 b m_value Hsz Hsg Hex).
  destruct (Z.gtb_spec b (numeric_limits.max T)); [lia |].
  destruct (one_byte_unsigned T Hsz Hsg) as [-> | ->].
  - change (numeric_limits.max bool_t) with 1 in *.
    assert (b = -1 \/ b = 0 \/ b = 1) as [-> | [-> | ->]] by lia;
      reflexivity.
  - change (numeric_limits.max uint8_t) with 255 in *.
    unfold static_cast, uint8_t.
    change (2 ^ bits (int_t 1 false)) with 256.
    destruct (Z.ltb_spec b 0).
    + destruct (Z.leb_spec (- b) 255); [| lia].
      rewrite <- (Z_mod_plus_full b 1 256), Z.mod_small by lia.
      do 2 f_equal. lia.
    + rewrite Z.mod_small by lia. reflexivity.
Qed.

Lemma unsigned_byte_accepts_as_static_cast_witness :
  sizeof uint8_t = 1 /\
  is_signed uint8_t = false /\
  Z.abs (-56) <= numeric_limits.max uint8_t /\
  read_as_integer uint8_t (istringstream "-56") 0 =
    Some ({| rdbuf := EmptyString; badbit := false; eofbit := true;
             failbit := false |}, 200).
Proof.
  split; [reflexivity |]. split; [reflexivity |].
  assert (H : Z.abs (-56) <= numeric_limits.max uint8_t)
    by (change (numeric_limits.max uint8_t) with 255; simpl; lia).
  split; [exact H |].
  exact (unsigned_byte_accepts_as_static_cast uint8_t (istringstream "-56") _
           (-56) 0 eq_refl eq_refl eq_refl H).
Defined.

(** ** The one-byte parsers against the stream's own numeric extractor *)

Ltac split_comparisons :=
  repeat match goal with
         | |- context [?a >? ?b] => destruct (Z.gtb_spec a b)
         | |- context [?a <? ?b] => destruct (Z.ltb_spec a b)
         | |- context [?a <=? ?b] => destruct (Z.leb_spec a b)
         end.

(** X5.  Read through the wrapper, a one-byte integer behaves as a number
    with the limits of its own type: on a good stream with a character to
    read, the parser leaves the stream and the target exactly as the
    stream's numeric extractor would, had it been asked to read a number
    of type [T] (malformed text stores 0 and fails, out-of-range text
    clamps and fails, a negative numeral wraps into an unsigned target when
    its magnitude fits). *)
Theorem byte_parser_emulates_numeric_extractor (sgn : bool) (ist : istream)
        (c : ascii) (s' : string) (m_value : Z) :
  good ist = true ->
  skipws (rdbuf ist) = String c s' ->
  exists ist2 v,
    num_get (int_t 1 sgn) (String c s') = (ist2, Some v) /\
    read_as_integer (int_t 1 sgn) ist m_value = Some (ist2, v).
Proof.
  intros Hgood Hws.
  pose proof (extract_wide int16_t ist c s' eq_refl Hgood Hws) as Hex.
  unfold num_get in Hex |- *.
  destruct (scan_sign (String c s')) as [neg s1].
  destruct (scan_digits s1 0 false) as [[n any] rest] eqn:Hscan.
  apply scan_digits_nonneg in Hscan; [| lia].
  unfold read_as_integer.
  destruct any.
  - destruct sgn; unfold num_get_convert in Hex |- *.
    + change (numeric_limits.max int16_t) with 32767 in Hex.
      change (numeric_limits.min int16_t) with (-32768) in Hex.
      destruct neg;
        repeat match type of Hex with
               | context [?a >? ?b] => destruct (Z.gtb_spec a b)
               | context [?a <? ?b] => destruct (Z.ltb_spec a b)
               end;
        rewrite (byte_signed_input_stored (int_t 1 true) _ _ _ m_value
                   eq_refl eq_refl Hex);
        change (numeric_limits.max (int_t 1 true)) with 127;
        change (numeric_limits.min (int_t 1 true)) with (-128);
        split_comparisons; try lia;
        eexists _, _; split; reflexivity.
    + change (numeric_limits.max int16_t) with 32767 in Hex.
      change (numeric_limits.min int16_t) with (-32768) in Hex.
      destruct neg;
        repeat match type of Hex with
               | context [?a >? ?b] => destruct (Z.gtb_spec a b)
               | context [?a <? ?b] => destruct (Z.ltb_spec a b)
               end;
        rewrite (byte_unsigned_input_stored (int_t 1 false) _ _ _ m_value
                   eq_refl eq_refl Hex);
        change (numeric_limits.max (int_t 1 false)) with 255;
        split_comparisons; try lia;
        eexists _, _; (split; [reflexivity |]); try reflexivity.
      all: unfold static_cast; change (2 ^ bits (int_t 1 false)) with 256.
      all: do 2 f_equal.
      all: destruct (Z.eq_dec n 0) as [-> | Hn];
        [first [reflexivity | lia] |].
      all: rewrite <- (Z_mod_plus_full (- n) 1 256), Z.mod_small by lia.
      all: lia.
  - destruct sgn.
    + rewrite (byte_signed_input_stored (int_t 1 true) _ _ _ m_value
                 eq_refl eq_refl Hex).
      eexists _, _; split; reflexivity.
    + rewrite (byte_unsigned_input_stored (int_t 1 false) _ _ _ m_value
                 eq_refl eq_refl Hex).
      eexists _, _; split; reflexivity.
Qed.

Lemma byte_parser_emulates_numeric_extractor_witness :
  good (istringstream "-99999") = true /\
  skipws (rdbuf (istringstream "-99999")) = "-99999"%string /\
  exists ist2 v,
    num_get int8_t "-99999" = (ist2, Some v) /\
    read_as_integer int8_t (istringstream "-99999") 5 = Some (ist2, v).
Proof.
  split; [reflexivity |]. split; [reflexivity |].
  exact (byte_parser_emulates_numeric_extractor true
           (istringstream "-99999") "-" "99999" 5 eq_refl eq_refl).
Defined.

(** ** Every type: what a read leaves behind *)

Lemma sizeof_cases (T : Integer) : sizeof T = 1 \/ 1 < sizeof T.
Proof. destruct T as [| bytes sgn]; simpl; lia. Qed.

Lemma append_nil_r (s : string) : (s ++ EmptyString)%string = s.
Proof.
  induction s as [| c s IH]; simpl; [reflexivity |].
  rewrite IH. reflexivity.
Qed.

Lemma append_inv_head (a b c : string) :
  (a ++ b)%string = (a ++ c)%string -> b = c.
Proof.
  induction a as [| x a IH]; simpl; intros H; [exact H |].
  injection H as H. apply IH. exact H.
Qed.

Lemma isspace_not_digit (c : ascii) : isspace c = true -> isdigit c = false.
Proof.
  unfold isspace, isdigit. intros H.
  apply orb_true_iff in H.
  destruct (Z.leb_spec 48 (code c)); [| reflexivity].
  destruct H as [H | H]; [lia |].
  apply andb_true_iff in H. lia.
Qed.

Lemma digit_char_not_minus (d : Z) :
  0 <= d < 10 -> digit_char d <> "-"%char.
Proof. intros H; each_digit d H; discriminate. Qed.

(** Distinct numbers have distinct numerals. *)
Lemma num_put_injective (v w : Z) : num_put v = num_put w -> v = w.
Proof.
  unfold num_put.
  destruct (Z.ltb_spec v 0) as [Hv | Hv];
    destruct (Z.ltb_spec w 0) as [Hw | Hw]; intros E.
  - injection E as E.
    pose proof (scan_digits_digits (- v) ltac:(lia)) as S1.
    pose proof (scan_digits_digits (- w) ltac:(lia)) as S2.
    rewrite E in S1. rewrite S1 in S2. injection S2 as S2. lia.
  - destruct (digits_head w) as (d & rest & Hd & Hw').
    rewrite Hw' in E. injection E as E _.
    symmetry in E. apply digit_char_not_minus in E; [contradiction | exact Hd].
  - destruct (digits_head v) as (d & rest & Hd & Hv').
    rewrite Hv' in E. injection E as E _.
    apply digit_char_not_minus in E; [contradiction | exact Hd].
  - pose proof (scan_digits_digits v Hv) as S1.
    pose proof (scan_digits_digits w Hw) as S2.
    rewrite E in S1. rewrite S1 in S2. injection S2 as S2. lia.
Qed.

(** Both views write a value of any integral type as its numeral, after
    what the sink already holds. *)
Lemma write_text (T : Integer) (v : Z) (os : ostream) :
  representable T v ->
  write_as_integer T os v = (os ++ num_put v)%string /\
  write_as_integer_const T os v = (os ++ num_put v)%string.
Proof.
  intros Hv. unfold write_as_integer, write_as_integer_const.
  destruct (sizeof_cases T) as [Hsz | Hsz].
  - rewrite byte_io_wrapper_text, byte_output_wrapper_text by assumption.
    split; reflexivity.
  - destruct (wide_dispatch T Hsz) as (E1 & E2 & _).
    rewrite E1, E2, insert_wide by assumption. split; reflexivity.
Qed.

Lemma byte_representable_int16 (T : Integer) (v : Z) :
  sizeof T = 1 -> representable T v -> representable int16_t v.
Proof.
  intros Hsz Hv. destruct (one_byte_limits T Hsz) as (_ & _ & Hmin & Hmax).
  unfold representable in *.
  change (numeric_limits.min int16_t) with (-32768).
  change (numeric_limits.max int16_t) with 32767. lia.
Qed.

(** Reading, into any integral type, a stream that holds (after white
    space) the numeral of one of its values and then something that is not
    a digit: the value is stored and the rest is left in the stream. *)
Lemma read_numeral (T : Integer) (ist : istream) (v : Z) (rest : string)
      (m_value : Z) :
  representable T v ->
  good ist = true ->
  skipws (rdbuf ist) = (num_put v ++ rest)%string ->
  starts_with_digit rest = false ->
  read_as_integer T ist m_value =
  Some ({| rdbuf := rest; badbit := false;
           eofbit := match rest with EmptyString => true | _ => false end;
           failbit := false |}, v).
Proof.
  intros Hv Hgood Hws Hrest. unfold read_as_integer.
  destruct (sizeof_cases T) as [Hsz | Hsz].
  - pose proof (extract_numeral int16_t ist v rest eq_refl
                  (byte_representable_int16 T v Hsz Hv) Hgood Hws Hrest)
      as Hex.
    destruct (one_byte_limits T Hsz) as (_ & _ & Hmin & Hmax).
    unfold representable in Hv.
    destruct (is_signed T) eqn:Hsg.
    + rewrite (byte_signed_input_stored T _ _ v m_value Hsz Hsg Hex).
      destruct (Z.gtb_spec v (numeric_limits.max T)); [lia |].
      destruct (Z.ltb_spec v (numeric_limits.min T)); [lia | reflexivity].
    + assert (Hmin0 : numeric_limits.min T = 0).
      { destruct (one_byte_unsigned T Hsz Hsg) as [-> | ->]; reflexivity. }
      rewrite (byte_unsigned_input_stored T _ _ v m_value Hsz Hsg Hex).
      destruct (Z.gtb_spec v (numeric_limits.max T)); [lia |].
      destruct (Z.ltb_spec v 0); [lia | reflexivity].
  - destruct (wide_dispatch T Hsz) as (_ & _ & E). rewrite E.
    unfold integral_io_wrapper.generic.input.
    rewrite (extract_numeral T ist v rest Hsz Hv Hgood Hws Hrest).
    reflexivity.
Qed.

(** The one-byte parsers are undefined when the source stored nothing. *)
Lemma byte_input_nothing (T : Integer) (ist ist1 : istream) (m_value : Z) :
  sizeof T = 1 ->
  extract int16_t ist = (ist1, None) ->
  integral_io_wrapper.input T ist m_value = None.
Proof.
  intros Hsz Hex.
  destruct (one_byte_cases T Hsz) as [-> | [-> | ->]];
    [change (integral_io_wrapper.input bool_t)
       with (integral_io_wrapper.byte_unsigned.input bool_t);
     unfold integral_io_wrapper.byte_unsigned.input
    |change (integral_io_wrapper.input int8_t)
       with (integral_io_wrapper.byte_signed.input int8_t);
     unfold integral_io_wrapper.byte_signed.input
    |change (integral_io_wrapper.input uint8_t)
       with (integral_io_wrapper.byte_unsigned.input uint8_t);
     unfold integral_io_wrapper.byte_unsigned.input];
    rewrite Hex; reflexivity.
Qed.

(** Whatever a read stores in the target is a value of the target's
    type, provided the target held one. *)
Lemma input_representable (T : Integer) (ist ist2 : istream) (m_value v : Z) :
  representable T m_value ->
  integral_io_wrapper.input T ist m_value = Some (ist2, v) ->
  representable T v.
Proof.
  intros Hm H.
  destruct (sizeof_cases T) as [Hsz | Hsz].
  - destruct (one_byte_limits T Hsz) as (_ & _ & Hmin & Hmax).
    destruct (extract int16_t ist) as [ist1 [b |]] eqn:Hex.
    + unfold representable. destruct (is_signed T) eqn:Hsg.
      * rewrite (byte_signed_input_stored T _ _ b m_value Hsz Hsg Hex) in H.
        destruct (Z.gtb_spec b (numeric_limits.max T));
          [injection H as _ <-; lia |].
        destruct (Z.ltb_spec b (numeric_limits.min T));
          injection H as _ <-; lia.
      * assert (Hmin0 : numeric_limits.min T = 0).
        { destruct (one_byte_unsigned T Hsz Hsg) as [-> | ->]; reflexivity. }
        rewrite (byte_unsigned_input_stored T _ _ b m_value Hsz Hsg Hex) in H.
        destruct (Z.gtb_spec b (numeric_limits.max T));
          [injection H as _ <-; lia |].
        destruct (Z.ltb_spec b 0); [| injection H as _ <-; lia].
        destruct (Z.leb_spec (- b) (numeric_limits.max T));
          injection H as _ <-; lia.
    + rewrite (byte_input_nothing T ist ist1 m_value Hsz Hex) in H.
      discriminate H.
  - destruct (wide_dispatch T Hsz) as (_ & _ & E). rewrite E in H.
    unfold integral_io_wrapper.generic.input in H.
    destruct (extract T ist) as [ist1 [b |]] eqn:Hex;
      injection H as _ <-; [| exact Hm].
    exact (extract_wide_stored T ist ist1 b Hsz Hex).
Qed.

Lemma read_back (T : Integer) (v m_value : Z) :
  representable T v ->
  read_as_integer T (istringstream (num_put v)) m_value =
  Some ({| rdbuf := EmptyString; badbit := false; eofbit := true;
           failbit := false |}, v).
Proof.
  intros Hv.
  apply (read_numeral T (istringstream (num_put v)) v EmptyString m_value
           Hv eq_refl); [| reflexivity].
  destruct (skipws_num_put v) as (c & s' & E & Hws).
  cbn [rdbuf istringstream]. rewrite append_nil_r. rewrite Hws, E.
  reflexivity.
Qed.

Lemma num_get_stores (U : Integer) (s : string) :
  exists ist1 v, num_get U s = (ist1, Some v).
Proof.
  unfold num_get.
  destruct (scan_sign s) as [neg s1].
  destruct (scan_digits s1 0 false) as [[n any] rest].
  destruct (if any then num_get_convert U neg n else (0, true)) as [v err].
  eexists _, _. reflexivity.
Qed.

(** X6.  Whatever a read leaves in the target, clamped or not and failed
    or not, is a value of the target's type (given the target held one
    before), and writing that value and reading the text again stores the
    same value with [failbit] clear.  This holds for every integral
    type. *)
Theorem read_result_reparses (T : Integer) (ist ist2 : istream)
        (m_value v m_value' : Z) :
  representable T m_value ->
  read_as_integer T ist m_value = Some (ist2, v) ->
  representable T v /\
  read_as_integer T
    (istringstream (write_as_integer T EmptyString v)) m_value' =
    Some ({| rdbuf := EmptyString; badbit := false; eofbit := true;
             failbit := false |}, v).
Proof.
  intros Hm H.
  pose proof (input_representable T ist ist2 m_value v Hm H) as Hv.
  split; [exact Hv |].
  rewrite (proj1 (write_text T v EmptyString Hv)).
  change (EmptyString ++ num_put v)%string with (num_put v).
  apply read_back. exact Hv.
Qed.

Lemma read_result_reparses_witness :
  representable uint16_t 7 /\
  read_as_integer uint16_t (istringstream "70000") 7 =
    Some ({| rdbuf := EmptyString; badbit := false; eofbit := true;
             failbit := true |}, 65535) /\
  representable uint16_t 65535 /\
  read_as_integer uint16_t
    (istringstream (write_as_integer uint16_t EmptyString 65535)) 0 =
    Some ({| rdbuf := EmptyString; badbit := false; eofbit := true;
             failbit := false |}, 65535).
Proof.
  assert (Hm : representable uint16_t 7).
  { unfold representable.
    change (numeric_limits.min uint16_t) with 0.
    change (numeric_limits.max uint16_t) with 65535. lia. }
  split; [exact Hm |]. split; [reflexivity |].
  exact (read_result_reparses uint16_t (istringstream "70000") _ 7 65535 0
           Hm eq_refl).
Defined.

(** ** A stream with nothing to read *)

(** X8.  A read into a one-byte type is undefined exactly when the stream
    is not good or holds nothing but white space: the source then stores
    nothing, and the parser compares a buffer that was never written.  In
    every other case the read is defined. *)
Theorem byte_read_undefined_iff_nothing_to_read (T : Integer)
        (ist : istream) (m_value : Z) :
  sizeof T = 1 ->
  read_as_integer T ist m_value = None <->
  good ist = false \/ skipws (rdbuf ist) = EmptyString.
Proof.
  intros Hsz. unfold read_as_integer. split.
  - intros H.
    destruct (good ist) eqn:Hgood; [| left; reflexivity].
    destruct (skipws (rdbuf ist)) as [| c s'] eqn:Hws;
      [right; reflexivity |].
    exfalso.
    pose proof (extract_wide int16_t ist c s' eq_refl Hgood Hws) as Hex.
    destruct (num_get_stores int16_t (String c s')) as (ist1 & b & E).
    rewrite E in Hex.
    destruct (is_signed T) eqn:Hsg.
    + rewrite (byte_signed_input_stored T _ _ b m_value Hsz Hsg Hex) in H.
      discriminate H.
    + rewrite (byte_unsigned_input_stored T _ _ b m_value Hsz Hsg Hex) in H.
      discriminate H.
  - intros Hnothing.
    destruct (extract_nothing int16_t ist Hnothing) as (ist1 & Hex & _).
    exact (byte_input_nothing T ist ist1 m_value Hsz Hex).
Qed.

Lemma byte_read_undefined_iff_nothing_to_read_witness :
  sizeof uint8_t = 1 /\
  skipws (rdbuf (istringstream "  ")) = EmptyString /\
  read_as_integer uint8_t (istringstream "  ") 42 = None.
Proof.
  split; [reflexivity |]. split; [reflexivity |].
  exact (proj2 (byte_read_undefined_iff_nothing_to_read uint8_t
                  (istringstream "  ") 42 eq_refl) (or_intror eq_refl)).
Defined.

(** ** Chained use *)

(** X9.  Two values written one after the other with a white-space
    character between them are read back, in order, by two chained reads;
    the first read stops right after its numeral and the second ends with
    [failbit] clear.  This holds for every integral type. *)
Theorem chained_values_read_back (T : Integer) (a b m1 m2 : Z) (c : ascii) :
  representable T a ->
  representable T b ->
  isspace c = true ->
  let os1 := write_as_integer T EmptyString a in
  let os2 := (os1 ++ String c EmptyString)%string in
  let os3 := write_as_integer T os2 b in
  let ist1 := {| rdbuf := String c (num_put b); badbit := false;
                 eofbit := false; failbit := false |} in
  read_as_integer T (istringstream os3) m1 = Some (ist1, a) /\
  read_as_integer T ist1 m2 =
    Some ({| rdbuf := EmptyString; badbit := false; eofbit := true;
             failbit := false |}, b).
Proof.
  intros Ha Hb Hc os1 os2 os3 ist1.
  assert (Hos3 : os3 = (num_put a ++ String c (num_put b))%string).
  { subst os3 os2 os1.
    rewrite (proj1 (write_text T b _ Hb)), (proj1 (write_text T a _ Ha)).
    change (EmptyString ++ num_put a)%string with (num_put a).
    rewrite !append_assoc. reflexivity. }
  destruct (skipws_num_put_then a (String c (num_put b)))
    as (x & s' & E & Hws).
  destruct (skipws_num_put b) as (y & t' & E' & Hws').
  split.
  - rewrite Hos3.
    apply (read_numeral T
             (istringstream (num_put a ++ String c (num_put b)))
             a (String c (num_put b)) m1 Ha eq_refl).
    + cbn [rdbuf istringstream]. rewrite Hws, E. reflexivity.
    + cbn [starts_with_digit]. apply isspace_not_digit. exact Hc.
  - apply (read_numeral T ist1 b EmptyString m2 Hb eq_refl);
      [| reflexivity].
    subst ist1. cbn [rdbuf skipws]. rewrite Hc, append_nil_r, Hws', E'.
    reflexivity.
Qed.

Lemma chained_values_read_back_witness :
  representable uint8_t 200 /\
  representable uint8_t 7 /\
  isspace " "%char = true /\
  write_as_integer uint8_t
    (write_as_integer uint8_t EmptyString 200 ++ " ")%string 7
    = "200 7"%string /\
  read_as_integer uint8_t (istringstream "200 7") 0 =
    Some ({| rdbuf := " 7"; badbit := false; eofbit := false;
             failbit := false |}, 200) /\
  read_as_integer uint8_t
    {| rdbuf := " 7"; badbit := false; eofbit := false; failbit := false |}
    0 =
    Some ({| rdbuf := EmptyString; badbit := false; eofbit := true;
             failbit := false |}, 7).
Proof.
  assert (Hr : forall v, 0 <= v <= 255 -> representable uint8_t v).
  { intros v Hv. unfold representable.
    change (numeric_limits.min uint8_t) with 0.
    change (numeric_limits.max uint8_t) with 255. exact Hv. }
  assert (Ha : representable uint8_t 200) by (apply Hr; lia).
  assert (Hb : representable uint8_t 7) by (apply Hr; lia).
  split; [exact Ha |]. split; [exact Hb |]. split; [reflexivity |].
  split; [reflexivity |].
  exact (chained_values_read_back uint8_t 200 7 0 0 " "%char Ha Hb eq_refl).
Defined.

(** ** Formatting *)

(** X10.  Two different values of an integral type are never written as
    the same text, through either view and whatever the sink already
    holds. *)
Theorem different_values_different_text (T : Integer) (os : ostream)
        (v w : Z) :
  representable T v ->
  representable T w ->
  v <> w ->
  write_as_integer T os v <> write_as_integer T os w /\
  write_as_integer_const T os v <> write_as_integer_const T os w.
Proof.
  intros Hv Hw Hne.
  destruct (write_text T v os Hv) as [E1 E2].
  destruct (write_text T w os Hw) as [F1 F2].
  rewrite E1, E2, F1, F2.
  split; intros H; apply Hne, num_put_injective;
    exact (append_inv_head os _ _ H).
Qed.

Lemma different_values_different_text_witness :
  representable int8_t (-1) /\
  representable int8_t 1 /\
  -1 <> 1 /\
  write_as_integer int8_t "x="%string (-1) = "x=-1"%string /\
  write_as_integer int8_t "x="%string 1 = "x=1"%string /\
  write_as_integer int8_t "x="%string (-1)
    <> write_as_integer int8_t "x="%string 1.
Proof.
  assert (Hr : forall v, -128 <= v <= 127 -> representable int8_t v).
  { intros v Hv. unfold representable.
    change (numeric_limits.min int8_t) with (-128).
    change (numeric_limits.max int8_t) with 127. exact Hv. }
  assert (Hv : representable int8_t (-1)) by (apply Hr; lia).
  assert (Hw : representable int8_t 1) by (apply Hr; lia).
  assert (Hne : -1 <> 1) by lia.
  split; [exact Hv |]. split; [exact Hw |]. split; [exact Hne |].
  split; [reflexivity |]. split; [reflexivity |].
  exact (proj1 (different_values_different_text int8_t "x="%string (-1) 1
                  Hv Hw Hne)).
Defined.

(** ** Reading from the middle of a text *)

(** X11.  On a good stream that holds, after any white space, the numeral
    of a value of [T] followed by something that is not a digit, a read
    into [T] (one byte or wider) stores that value, leaves exactly the
    text after the numeral in the stream, keeps [failbit] clear, and sets
    [eofbit] only if nothing is left. *)
Theorem read_stops_after_numeral (T : Integer) (ist : istream) (v : Z)
        (rest : string) (m_value : Z) :
  representable T v ->
  good ist = true ->
  skipws (rdbuf ist) = (num_put v ++ rest)%string ->
  starts_with_digit rest = false ->
  read_as_integer T ist m_value =
  Some ({| rdbuf := rest; badbit := false;
           eofbit := match rest with EmptyString => true | _ => false end;
           failbit := false |}, v).
Proof.
  intros Hv Hgood Hws Hrest.
  apply read_numeral; assumption.
Qed.

Lemma read_stops_after_numeral_witness :
  representable int8_t (-5) /\
  good (istringstream "  -5, next") = true /\
  skipws (rdbuf (istringstream "  -5, next"))
    = (num_put (-5) ++ ", next")%string /\
  starts_with_digit ", next" = false /\
  read_as_integer int8_t (istringstream "  -5, next") 0 =
    Some ({| rdbuf := ", next"; badbit := false; eofbit := false;
             failbit := false |}, -5).
Proof.
  assert (Hv : representable int8_t (-5)).
  { unfold representable.
    change (numeric_limits.min int8_t) with (-128).
    change (numeric_limits.max int8_t) with 127. lia. }
  split; [exact Hv |]. split; [reflexivity |]. split; [reflexivity |].
  split; [reflexivity |].
  exact (read_stops_after_numeral int8_t (istringstream "  -5, next") (-5)
           ", next" 0 Hv eq_refl eq_refl eq_refl).
Defined.
